(** * moveit_drake: conversions between MoveIt joint states and Drake vectors

    A shallow embedding of [src/conversions.cpp] and the properties of its
    functions: packing named joint values into dense vectors and back, the
    four bound extractors, fitting a first-order-hold trajectory, resampling
    it into waypoints, and the mesh file-extension substitution.

    C++ [double] is IEEE binary64, embedded as Rocq's primitive [float];
    [Eigen::VectorXd] is a [list float] read and written by index;
    name-keyed tables are [gmap string _]; code that can throw, trip an
    assertion or leave the language's defined behaviour returns [result]. *)

From Stdlib Require Import ZArith Floats Ascii String List Lia.
From stdpp Require Import base tactics option list gmap strings.

(** ** Failures and the result monad *)

Inductive failure : Type :=
| AssertionFailed                 (* an [assert] of the source does not hold *)
| NullGroup (name : string)       (* getJointModelGroup gave no group, then dereferenced *)
| UnknownVariable (name : string) (* RobotState: no variable of that name *)
| UnknownJoint (name : string)    (* MultibodyPlant::GetJointByName throws *)
| IndexOutOfRange (i : nat)       (* Eigen coefficient access outside the vector *)
| NoVariableBounds (name : string)(* getVariableBounds()[0] on a joint without variables *)
| NoWayPoint (i : nat)            (* RobotTrajectory::getWayPoint outside the deque *)
| InvalidArgument                 (* the first-order-hold constructor refuses its input *)
| UndefinedConversion             (* static_cast<size_t> of a double outside size_t *)
| CounterWraps.                   (* an unsigned int counter can never reach its bound *)

Inductive result (A : Type) : Type :=
| Ok (a : A)
| Fail (e : failure).
Arguments Ok {A} a.
Arguments Fail {A} e.

#[global] Instance result_ret : MRet result := λ A a, Ok a.
#[global] Instance result_bind : MBind result :=
  λ A B f m, match m with Ok a => f a | Fail e => Fail e end.

Definition assert (b : bool) : result unit :=
  if b then Ok tt else Fail AssertionFailed.

(** A range-for loop whose body may fail: the state is threaded through the
    elements in order and the first failure ends the loop. *)
Fixpoint for_each {A S : Type} (body : S → A → result S) (l : list A) (s : S)
  : result S :=
  match l with
  | [] => Ok s
  | x :: l' => s' ← body s x; for_each body l' s'
  end.

(** ** Doubles *)

Module Double.

(** [static_cast<double>] of a non-negative integer: round to nearest even. *)
Definition of_Z (z : Z) : float :=
  SF2Prim (binary_normalize prec emax z 0 false).

(** [std::ceil]: the least integral double not below [x]; zeros, infinities
    and NaN are returned unchanged, and a negative argument above -1 gives
    the negative zero. *)
Definition ceil (x : float) : float :=
  match Prim2SF x with
  | S754_finite s m e =>
      if (0 <=? e)%Z then x
      else
        let q := (Z.pos m / 2 ^ (- e))%Z in
        let r := (Z.pos m mod 2 ^ (- e))%Z in
        if s then (if (q =? 0)%Z then neg_zero else (- of_Z q)%float)
        else if (r =? 0)%Z then of_Z q else of_Z (q + 1)
  | _ => x
  end.

(** [static_cast<size_t>(x)]: the fractional part is discarded; the
    conversion is undefined when the truncated value is not a [size_t]
    (64 bits), in particular for infinities and NaN. *)
Definition to_size_t (x : float) : result Z :=
  match Prim2SF x with
  | S754_zero _ => Ok 0%Z
  | S754_finite s m e =>
      let a := (if (0 <=? e)%Z then Z.pos m * 2 ^ e
                else Z.pos m / 2 ^ (- e))%Z in
      if s then (if (a =? 0)%Z then Ok 0%Z else Fail UndefinedConversion)
      else if (a <? 2 ^ 64)%Z then Ok a else Fail UndefinedConversion
  | _ => Fail UndefinedConversion
  end.

(** [std::min(a, b)] is [(b < a) ? b : a]. *)
Definition min (a b : float) : float := if (b <? a)%float then b else a.

(** [std::numeric_limits<double>::max()] and [lowest()]. *)
Definition numeric_limits_max : float := 0x1.fffffffffffffp+1023%float.
Definition numeric_limits_lowest : float := (- numeric_limits_max)%float.

End Double.

(** ** Eigen vectors *)

Abbreviation VectorXd := (list float).

(** [Eigen::VectorXd::Zero(n)]. *)
Definition Zero (n : nat) : VectorXd := replicate n 0%float.

(** [v(i) = x]. *)
Definition set_coeff (v : VectorXd) (i : nat) (x : float) : result VectorXd :=
  if decide (i < length v) then Ok (<[i := x]> v) else Fail (IndexOutOfRange i).

(** [v(i)] read. *)
Definition coeff (v : VectorXd) (i : nat) : result float :=
  match v !! i with
  | Some x => Ok x
  | None => Fail (IndexOutOfRange i)
  end.

(** [v.resize(n)]: [n] coefficients, with contents the caller must not rely
    on (the old ones where there are any, here). *)
Definition resize (n : nat) (v : VectorXd) : VectorXd :=
  take n (v ++ replicate n 0%float).

(** ** The MoveIt side: joints, groups, states, trajectories

    The source reads and writes these classes of MoveIt through the few
    members modelled here; the classes themselves are not part of it. *)

(** [moveit::core::VariableBounds]. *)
Record VariableBounds : Type := {
  min_position_ : float; max_position_ : float; position_bounded_ : bool;
  min_velocity_ : float; max_velocity_ : float; velocity_bounded_ : bool;
  min_acceleration_ : float; max_acceleration_ : float;
  acceleration_bounded_ : bool;
  min_jerk_ : float; max_jerk_ : float; jerk_bounded_ : bool
}.

Module JointModel.
Record t : Type := {
  getName : string;
  getVariableBounds : list VariableBounds   (* one entry per variable *)
}.
End JointModel.

Module JointModelGroup.
Record t : Type := {
  getName : string;
  getActiveJointModels : list JointModel.t
}.
End JointModelGroup.

Module RobotModel.
Record t : Type := { groups : gmap string JointModelGroup.t }.

Definition getJointModelGroup (m : t) (name : string)
  : result JointModelGroup.t :=
  match groups m !! name with
  | Some g => Ok g
  | None => Fail (NullGroup name)
  end.
End RobotModel.

(** A robot state holds a position and a velocity per variable name. The
    source handles single-variable joints only, whose one variable carries
    the joint's name. *)
Module RobotState.
Record t : Type := {
  getRobotModel : RobotModel.t;
  position : gmap string float;
  velocity : gmap string float
}.

(** [std::make_shared<RobotState>(model)]: no variable set yet. *)
Definition make (m : RobotModel.t) : t :=
  {| getRobotModel := m; position := ∅; velocity := ∅ |}.

Definition getVariablePosition (s : t) (name : string) : result float :=
  match position s !! name with
  | Some x => Ok x
  | None => Fail (UnknownVariable name)
  end.

Definition getVariableVelocity (s : t) (name : string) : result float :=
  match velocity s !! name with
  | Some x => Ok x
  | None => Fail (UnknownVariable name)
  end.

Definition setJointPositions (s : t) (j : JointModel.t) (x : float) : t :=
  {| getRobotModel := getRobotModel s;
     position := <[JointModel.getName j := x]> (position s);
     velocity := velocity s |}.

Definition setJointVelocities (s : t) (j : JointModel.t) (x : float) : t :=
  {| getRobotModel := getRobotModel s;
     position := position s;
     velocity := <[JointModel.getName j := x]> (velocity s) |}.
End RobotState.

(** [robot_trajectory::RobotTrajectory]: waypoints and, beside them, the
    duration from the previous waypoint of each. *)
Module RobotTrajectory.
Record t : Type := {
  getRobotModel : RobotModel.t;
  getGroup : JointModelGroup.t;
  waypoints_ : list RobotState.t;
  duration_from_previous_ : list float
}.

Definition getWayPointCount (tr : t) : nat := length (waypoints_ tr).

Definition getWayPoint (tr : t) (i : nat) : result RobotState.t :=
  match waypoints_ tr !! i with
  | Some s => Ok s
  | None => Fail (NoWayPoint i)
  end.

(** The durations up to and including waypoint [i], added up from 0.0. *)
Definition getWayPointDurationFromStart (tr : t) (i : nat) : float :=
  fold_left PrimFloat.add (take (S i) (duration_from_previous_ tr)) 0%float.

Definition clear (tr : t) : t :=
  {| getRobotModel := getRobotModel tr; getGroup := getGroup tr;
     waypoints_ := []; duration_from_previous_ := [] |}.

Definition addSuffixWayPoint (tr : t) (s : RobotState.t) (dt : float) : t :=
  {| getRobotModel := getRobotModel tr; getGroup := getGroup tr;
     waypoints_ := waypoints_ tr ++ [s];
     duration_from_previous_ := duration_from_previous_ tr ++ [dt] |}.
End RobotTrajectory.

(** ** The Drake side: the plant and continuous trajectories

    Of a plant the source uses the two capacities and the ordinal of a joint
    found by name; of a trajectory, [end_time()], [value(t)] and
    [EvalDerivative(t)]. *)

Module MultibodyPlant.
Record t : Type := {
  num_positions : nat;
  num_velocities : nat;
  num_accelerations : nat;       (* read by one assertion only *)
  joints : gmap string nat       (* joint name to ordinal *)
}.

(** [plant.GetJointByName(name).ordinal()]. *)
Definition GetJointByName_ordinal (p : t) (name : string) : result nat :=
  match joints p !! name with
  | Some i => Ok i
  | None => Fail (UnknownJoint name)
  end.
End MultibodyPlant.

(** [drake::trajectories::Trajectory<double>], an evaluator over time. *)
Module Trajectory.
Record t : Type := {
  end_time : float;
  value : float → VectorXd;
  EvalDerivative : float → VectorXd
}.
End Trajectory.

(** Modelled from the spec: Drake's [PiecewisePolynomial<double>], its
    [FirstOrderHold] constructor and its evaluation are a library outside
    the source file. Section 4.4 gives what is modelled: at least two
    breaks, strictly increasing, or the input is invalid; between adjacent
    breaks [t0 < t1] with samples [s0], [s1] the position at [t] is
    [s0 + (t-t0)/(t1-t0) * (s1-s0)] and the derivative is the constant
    [(s1-s0)/(t1-t0)]; [end_time()] is the final break. A time at a break
    belongs to the segment that starts there, the final break to the last
    segment. *)
Module PiecewisePolynomial.
Record t : Type := {
  breaks : list float;
  samples : list VectorXd
}.

Fixpoint strictly_increasing (ts : list float) : bool :=
  match ts with
  | t0 :: ((t1 :: _) as rest) => (t0 <? t1)%float && strictly_increasing rest
  | _ => true
  end.

Definition FirstOrderHold (breaks : list float) (samples : list VectorXd)
  : result t :=
  if (2 <=? length breaks) && (length breaks =? length samples)
     && strictly_increasing breaks
  then Ok {| breaks := breaks; samples := samples |}
  else Fail InvalidArgument.

Definition end_time (p : t) : float := List.last (breaks p) 0%float.

(** The segment used at time [x]: the first whose end is after [x], else the
    last one. *)
Fixpoint segment (knots : list (float * VectorXd)) (x : float)
  : option ((float * VectorXd) * (float * VectorXd)) :=
  match knots with
  | k0 :: ((k1 :: more) as rest) =>
      match more with
      | [] => Some (k0, k1)
      | _ => if (x <? k1.1)%float then Some (k0, k1) else segment rest x
      end
  | _ => None
  end.

Definition interpolate (t0 t1 : float) (s0 s1 : VectorXd) (x : float)
  : VectorXd :=
  zip_with (λ a b, a + (x - t0) / (t1 - t0) * (b - a))%float s0 s1.

Definition slope (t0 t1 : float) (s0 s1 : VectorXd) : VectorXd :=
  zip_with (λ a b, (b - a) / (t1 - t0))%float s0 s1.

Definition value (p : t) (x : float) : VectorXd :=
  match segment (zip (breaks p) (samples p)) x with
  | Some ((t0, s0), (t1, s1)) => interpolate t0 t1 s0 s1 x
  | None => []
  end.

Definition EvalDerivative (p : t) (x : float) : VectorXd :=
  match segment (zip (breaks p) (samples p)) x with
  | Some ((t0, s0), (t1, s1)) => slope t0 t1 s0 s1
  | None => []
  end.

(** A piecewise polynomial seen through the [Trajectory] interface. *)
Definition as_trajectory (p : t) : Trajectory.t :=
  {| Trajectory.end_time := end_time p;
     Trajectory.value := value p;
     Trajectory.EvalDerivative := EvalDerivative p |}.
End PiecewisePolynomial.

(** ** conversions.cpp *)

Definition kMaxVelocity : float := 100.0%float.
Definition kMaxAcceleration : float := 100.0%float.
Definition kMaxJerk : float := 100.0%float.

Definition getJointPositionVector (moveit_state : RobotState.t)
    (group_name : string) (plant : MultibodyPlant.t) : result VectorXd :=
  joint_model_group ←
    RobotModel.getJointModelGroup (RobotState.getRobotModel moveit_state)
      group_name;
  let active := JointModelGroup.getActiveJointModels joint_model_group in
  _ ← assert (length active <=? MultibodyPlant.num_positions plant);
  for_each
    (λ joint_positions joint_model,
       let joint_name := JointModel.getName joint_model in
       joint_index ← MultibodyPlant.GetJointByName_ordinal plant joint_name;
       x ← RobotState.getVariablePosition moveit_state joint_name;
       set_coeff joint_positions joint_index x)
    active (Zero (MultibodyPlant.num_positions plant)).

Definition getJointVelocityVector (moveit_state : RobotState.t)
    (group_name : string) (plant : MultibodyPlant.t) : result VectorXd :=
  joint_model_group ←
    RobotModel.getJointModelGroup (RobotState.getRobotModel moveit_state)
      group_name;
  let active := JointModelGroup.getActiveJointModels joint_model_group in
  _ ← assert (length active <=? MultibodyPlant.num_velocities plant);
  for_each
    (λ joint_velocities joint_model,
       let joint_name := JointModel.getName joint_model in
       joint_index ← MultibodyPlant.GetJointByName_ordinal plant joint_name;
       x ← RobotState.getVariableVelocity moveit_state joint_name;
       set_coeff joint_velocities joint_index x)
    active (Zero (MultibodyPlant.num_velocities plant)).

(** The four bound extractors of the source are one body with other names in
    it: the capacity the assertion reads, the capacity the vectors get, the
    two defaults, and the flag, minimum and maximum read from the joint's
    first variable ("Assume single DoF joints"). *)
Definition extract_bounds (asserted capacity : nat) (lowest highest : float)
    (bounded : VariableBounds → bool) (vmin vmax : VariableBounds → float)
    (joint_model_group : JointModelGroup.t) (plant : MultibodyPlant.t)
    (lower_bounds upper_bounds : VectorXd) : result (VectorXd * VectorXd) :=
  let active := JointModelGroup.getActiveJointModels joint_model_group in
  _ ← assert (length active <=? asserted);
  filled ←
    for_each
      (λ '(lower, upper) i,
         lower' ← set_coeff lower i lowest;
         upper' ← set_coeff upper i highest;
         Ok (lower', upper'))
      (seq 0 capacity)
      (resize capacity lower_bounds, resize capacity upper_bounds);
  for_each
    (λ '(lower, upper) joint_model,
       let joint_name := JointModel.getName joint_model in
       bounds ← match JointModel.getVariableBounds joint_model with
                | b :: _ => Ok b
                | [] => Fail (NoVariableBounds joint_name)
                end;
       joint_index ← MultibodyPlant.GetJointByName_ordinal plant joint_name;
       if bounded bounds then
         lower' ← set_coeff lower joint_index (vmin bounds);
         upper' ← set_coeff upper joint_index (vmax bounds);
         Ok (lower', upper')
       else Ok (lower, upper))
    active filled.

Definition getPositionBounds (joint_model_group : JointModelGroup.t)
    (plant : MultibodyPlant.t) (lower_position_bounds upper_position_bounds : VectorXd)
  : result (VectorXd * VectorXd) :=
  extract_bounds (MultibodyPlant.num_positions plant)
    (MultibodyPlant.num_positions plant)
    Double.numeric_limits_lowest Double.numeric_limits_max
    position_bounded_ min_position_ max_position_
    joint_model_group plant lower_position_bounds upper_position_bounds.

Definition getVelocityBounds (joint_model_group : JointModelGroup.t)
    (plant : MultibodyPlant.t) (lower_velocity_bounds upper_velocity_bounds : VectorXd)
  : result (VectorXd * VectorXd) :=
  extract_bounds (MultibodyPlant.num_velocities plant)
    (MultibodyPlant.num_velocities plant)
    (- kMaxVelocity)%float kMaxVelocity
    velocity_bounded_ min_velocity_ max_velocity_
    joint_model_group plant lower_velocity_bounds upper_velocity_bounds.

Definition getAccelerationBounds (joint_model_group : JointModelGroup.t)
    (plant : MultibodyPlant.t)
    (lower_acceleration_bounds upper_acceleration_bounds : VectorXd)
  : result (VectorXd * VectorXd) :=
  extract_bounds (MultibodyPlant.num_accelerations plant)
    (MultibodyPlant.num_velocities plant)
    (- kMaxAcceleration)%float kMaxAcceleration
    acceleration_bounded_ min_acceleration_ max_acceleration_
    joint_model_group plant lower_acceleration_bounds upper_acceleration_bounds.

Definition getJerkBounds (joint_model_group : JointModelGroup.t)
    (plant : MultibodyPlant.t) (lower_jerk_bounds upper_jerk_bounds : VectorXd)
  : result (VectorXd * VectorXd) :=
  extract_bounds (MultibodyPlant.num_velocities plant)
    (MultibodyPlant.num_velocities plant)
    (- kMaxJerk)%float kMaxJerk
    jerk_bounded_ min_jerk_ max_jerk_
    joint_model_group plant lower_jerk_bounds upper_jerk_bounds.

Definition getPiecewisePolynomial (robot_trajectory : RobotTrajectory.t)
    (group : JointModelGroup.t) (plant : MultibodyPlant.t)
  : result PiecewisePolynomial.t :=
  '(breaks, samples) ←
    for_each
      (λ '(breaks, samples) i,
         state ← RobotTrajectory.getWayPoint robot_trajectory i;
         sample ← getJointPositionVector state
                    (JointModelGroup.getName group) plant;
         Ok (breaks ++
               [RobotTrajectory.getWayPointDurationFromStart robot_trajectory i],
             samples ++ [sample]))
      (seq 0 (RobotTrajectory.getWayPointCount robot_trajectory))
      ([], []);
  PiecewisePolynomial.FirstOrderHold breaks samples.

(** The inner loop of [getRobotTrajectory]: every active joint of the group
    gets the coefficient at its ordinal of the position and of the derivative
    vector. *)
Definition unpack_waypoint (active_joints : list JointModel.t)
    (plant : MultibodyPlant.t) (pos_val vel_val : VectorXd)
    (waypoint : RobotState.t) : result RobotState.t :=
  for_each
    (λ waypoint joint_model,
       let joint_name := JointModel.getName joint_model in
       joint_index ← MultibodyPlant.GetJointByName_ordinal plant joint_name;
       p ← coeff pos_val joint_index;
       waypoint ← Ok (RobotState.setJointPositions waypoint joint_model p);
       v ← coeff vel_val joint_index;
       Ok (RobotState.setJointVelocities waypoint joint_model v))
    active_joints waypoint.

(** [static_cast<size_t>(std::ceil(end_time / delta_t) + 1)]. *)
Definition num_pts (end_time delta_t : float) : result Z :=
  Double.to_size_t (Double.ceil (end_time / delta_t) + 1)%float.

(** [t_scale] and [t] of sample [i]; [num_pts - 1] is a [size_t]
    subtraction. *)
Definition t_scale (i num_pts : Z) : float :=
  (Double.of_Z i / Double.of_Z ((num_pts - 1) mod 2 ^ 64))%float.

Definition sample_time (end_time : float) (i num_pts : Z) : float :=
  (Double.min (t_scale i num_pts) 1.0 * end_time)%float.

(** The sampling loop: the trajectory under construction and [t_prev] are
    the state; a failure leaves the output as it was when it was raised. *)
Fixpoint sample_loop (drake_trajectory : Trajectory.t)
    (plant : MultibodyPlant.t) (active_joints : list JointModel.t)
    (num_pts : Z) (indices : list Z)
    (moveit_trajectory : RobotTrajectory.t) (t_prev : float)
  : RobotTrajectory.t * option failure :=
  match indices with
  | [] => (moveit_trajectory, None)
  | i :: rest =>
      let t := sample_time (Trajectory.end_time drake_trajectory) i num_pts in
      let pos_val := Trajectory.value drake_trajectory t in
      let vel_val := Trajectory.EvalDerivative drake_trajectory t in
      match
        unpack_waypoint active_joints plant pos_val vel_val
          (RobotState.make (RobotTrajectory.getRobotModel moveit_trajectory))
      with
      | Ok waypoint =>
          sample_loop drake_trajectory plant active_joints num_pts rest
            (RobotTrajectory.addSuffixWayPoint moveit_trajectory waypoint
               (t - t_prev)%float)
            t
      | Fail e => (moveit_trajectory, Some e)
      end
  end.

(** The output trajectory is an in-out parameter: the function returns its
    final contents and the failure that ended the call, if any. The counter
    [i] is an [unsigned int] compared with a [size_t]: it takes the values
    below [2^32] only, so with [2^32] points or more the loop cannot end
    ([CounterWraps] stands for that; the output is then not described). *)
Definition getRobotTrajectory (drake_trajectory : Trajectory.t)
    (delta_t : float) (plant : MultibodyPlant.t)
    (moveit_trajectory : RobotTrajectory.t)
  : RobotTrajectory.t * option failure :=
  let moveit_trajectory := RobotTrajectory.clear moveit_trajectory in
  let t_prev := 0.0%float in
  match num_pts (Trajectory.end_time drake_trajectory) delta_t with
  | Fail e => (moveit_trajectory, Some e)
  | Ok num_pts =>
      let active_joints :=
        JointModelGroup.getActiveJointModels
          (RobotTrajectory.getGroup moveit_trajectory) in
      if (2 ^ 32 <=? num_pts)%Z then (moveit_trajectory, Some CounterWraps)
      else
        sample_loop drake_trajectory plant active_joints num_pts
          (Z.of_nat <$> seq 0 (Z.to_nat num_pts)) moveit_trajectory t_prev
  end.

(** *** replaceSTLWithOBJ *)

(** [std::string] as the list of its characters. *)
Module StdString.
(** Does [pat] occur at the front of [s]? *)
Fixpoint starts_with (pat s : list ascii) : bool :=
  match pat, s with
  | [], _ => true
  | p :: pat', c :: s' => Ascii.eqb p c && starts_with pat' s'
  | _ :: _, [] => false
  end.

(** [s.find(pat, pos)]: the least position from [pos] on where [pat]
    occurs; [None] is [std::string::npos]. *)
Fixpoint find (s pat : list ascii) (pos : nat) {struct s} : option nat :=
  match pos with
  | S pos' =>
      match s with
      | [] => None
      | _ :: s' => S <$> find s' pat pos'
      end
  | O =>
      if starts_with pat s then Some 0
      else match s with
           | [] => None
           | _ :: s' => S <$> find s' pat 0
           end
  end.

(** [s.replace(pos, len, r)] for a position inside [s]. *)
Definition replace (s : list ascii) (pos len : nat) (r : list ascii)
  : list ascii :=
  take pos s ++ r ++ drop (pos + len) s.
End StdString.

(** [while ((pos = result.find(pat, pos)) != npos)
      { result.replace(pos, pat.length(), repl); pos += repl.length(); }]
    run for at most [fuel] tests of its condition; [None] when the loop has
    not ended by then. *)
Fixpoint replace_loop (fuel : nat) (pat repl result : list ascii) (pos : nat)
  : option (list ascii) :=
  match fuel with
  | O => None
  | S fuel' =>
      match StdString.find result pat pos with
      | None => Some result
      | Some p =>
          replace_loop fuel' pat repl
            (StdString.replace result p (length pat) repl)
            (p + length repl)
      end
  end.

Definition lower_case_stl : list ascii := list_ascii_of_string ".stl".
Definition upper_case_stl : list ascii := list_ascii_of_string ".STL".
Definition replacement : list ascii := list_ascii_of_string ".obj".

(** Each loop gets one test of its condition per character and one more. *)
Definition replaceSTLWithOBJ (input : string) : option string :=
  let result := list_ascii_of_string input in
  result ← replace_loop (S (length result)) lower_case_stl replacement result 0;
  result ← replace_loop (S (length result)) upper_case_stl replacement result 0;
  Some (string_of_list_ascii result).

(** ** What the claims compare the code with *)

(** One pass from left to right over [s]: where one of [pats] occurs, emit
    the replacement and go on behind the occurrence; otherwise copy the
    character. [n] bounds the number of steps; the length of [s] is
    enough. *)
Fixpoint substitute (pats : list (list ascii)) (n : nat) (s : list ascii)
  : list ascii :=
  match n with
  | O => s
  | S n' =>
      if existsb (λ pat, StdString.starts_with pat s) pats
      then replacement ++ substitute pats n' (drop 4 s)
      else match s with
           | [] => []
           | c :: s' => c :: substitute pats n' s'
           end
  end.

(** The two patterns of the source. *)
Definition stl_patterns : list (list ascii) :=
  [lower_case_stl; upper_case_stl].

(** The pass with exactly as many steps as characters. *)
Definition pass (pats : list (list ascii)) (s : list ascii) : list ascii :=
  substitute pats (length s) s.

(** Every occurrence of ".stl" and of ".STL" replaced by ".obj". *)
Definition replace_all (s : string) : string :=
  string_of_list_ascii (pass stl_patterns (list_ascii_of_string s)).

(** The patterns a pass may look for: four characters each. *)
Definition four_long (pats : list (list ascii)) : Prop :=
  Forall (λ pat, length pat = 4) pats.

(** [pat] occurs in [s] at position [p]. *)
Definition occurs_at (pat : string) (s : string) (p : nat) : Prop :=
  StdString.starts_with (list_ascii_of_string pat)
    (drop p (list_ascii_of_string s)) = true.

(** The character of [s] at position [i], if there is one. *)
Definition char_at (s : string) (i : nat) : option ascii :=
  list_ascii_of_string s !! i.


(** A group's joints and a plant fit a capacity when the capacity holds the
    joints, every joint's name has an ordinal below the capacity, and no two
    joints share an ordinal. *)
Definition ordinal_of (plant : MultibodyPlant.t) (j : JointModel.t)
  : option nat :=
  MultibodyPlant.joints plant !! JointModel.getName j.

Definition consistent (active : list JointModel.t) (plant : MultibodyPlant.t)
    (capacity : nat) : Prop :=
  length active ≤ capacity
  ∧ Forall (λ j, ∃ i, ordinal_of plant j = Some i ∧ i < capacity) active
  ∧ NoDup (ordinal_of plant <$> active).

(** The same, as a test that can be run. *)
Definition consistentb (active : list JointModel.t) (plant : MultibodyPlant.t)
    (capacity : nat) : bool :=
  (length active <=? capacity)
  && forallb (λ j, match ordinal_of plant j with
                   | Some i => i <? capacity
                   | None => false
                   end) active
  && bool_decide (NoDup (ordinal_of plant <$> active)).

(** Ordinal [i] carries no active joint. *)
Definition unmapped (active : list JointModel.t) (plant : MultibodyPlant.t)
    (i : nat) : Prop :=
  Some i ∉ ordinal_of plant <$> active.

(** The state has a position and a velocity for every joint of the list. *)
Definition has_joints (s : RobotState.t) (active : list JointModel.t) : Prop :=
  Forall (λ j, is_Some (RobotState.position s !! JointModel.getName j)
               ∧ is_Some (RobotState.velocity s !! JointModel.getName j))
    active.

(** The first variable's bounds of every joint: the source reads entry 0. *)
Definition single_dof (active : list JointModel.t) : Prop :=
  Forall (λ j, JointModel.getVariableBounds j ≠ []) active.

(** The four quantities that have bounds, and what the extractor of each
    reads and writes. *)
Inductive Quantity : Type := Position | Velocity | Acceleration | Jerk.

Definition extractor (q : Quantity)
  : JointModelGroup.t → MultibodyPlant.t → VectorXd → VectorXd →
    result (VectorXd * VectorXd) :=
  match q with
  | Position => getPositionBounds
  | Velocity => getVelocityBounds
  | Acceleration => getAccelerationBounds
  | Jerk => getJerkBounds
  end.

Definition flag (q : Quantity) : VariableBounds → bool :=
  match q with
  | Position => position_bounded_
  | Velocity => velocity_bounded_
  | Acceleration => acceleration_bounded_
  | Jerk => jerk_bounded_
  end.

Definition declared_min (q : Quantity) : VariableBounds → float :=
  match q with
  | Position => min_position_
  | Velocity => min_velocity_
  | Acceleration => min_acceleration_
  | Jerk => min_jerk_
  end.

Definition declared_max (q : Quantity) : VariableBounds → float :=
  match q with
  | Position => max_position_
  | Velocity => max_velocity_
  | Acceleration => max_acceleration_
  | Jerk => max_jerk_
  end.

Definition default_lower (q : Quantity) : float :=
  match q with
  | Position => Double.numeric_limits_lowest
  | Velocity => (- kMaxVelocity)%float
  | Acceleration => (- kMaxAcceleration)%float
  | Jerk => (- kMaxJerk)%float
  end.

Definition default_upper (q : Quantity) : float :=
  match q with
  | Position => Double.numeric_limits_max
  | Velocity => kMaxVelocity
  | Acceleration => kMaxAcceleration
  | Jerk => kMaxJerk
  end.

(** The length of the bound vectors, and the count the assertion reads. *)
Definition capacity (q : Quantity) (plant : MultibodyPlant.t) : nat :=
  match q with
  | Position => MultibodyPlant.num_positions plant
  | _ => MultibodyPlant.num_velocities plant
  end.

Definition asserted (q : Quantity) (plant : MultibodyPlant.t) : nat :=
  match q with
  | Position => MultibodyPlant.num_positions plant
  | Acceleration => MultibodyPlant.num_accelerations plant
  | _ => MultibodyPlant.num_velocities plant
  end.

(** Two joints that an extractor of quantity [q] cannot tell apart: the same
    name, and first variables with the same flag and, where it is set, the
    same declared minimum and maximum of [q]. *)
Definition same_limits (q : Quantity) (j j' : JointModel.t) : Prop :=
  JointModel.getName j = JointModel.getName j'
  ∧ match JointModel.getVariableBounds j, JointModel.getVariableBounds j' with
    | b :: _, b' :: _ =>
        flag q b = flag q b'
        ∧ (flag q b = true →
           declared_min q b = declared_min q b'
           ∧ declared_max q b = declared_max q b')
    | [], [] => True
    | _, _ => False
    end.

(** The elapsed-time deltas of sample times [ts] taken after [t_prev]. *)
Fixpoint deltas (t_prev : float) (ts : list float) : list float :=
  match ts with
  | [] => []
  | t :: ts' => (t - t_prev)%float :: deltas t ts'
  end.

(** The vectors a continuous trajectory evaluates to cover the ordinals of
    the joints, at every time. *)
Definition covers (drake_trajectory : Trajectory.t) (plant : MultibodyPlant.t)
    (active : list JointModel.t) : Prop :=
  ∀ t j, j ∈ active →
    ∃ i, ordinal_of plant j = Some i
         ∧ i < length (Trajectory.value drake_trajectory t)
         ∧ i < length (Trajectory.EvalDerivative drake_trajectory t).

(** The break times the fitter computes, one per waypoint. *)
Definition breaks_of (robot_trajectory : RobotTrajectory.t) : list float :=
  RobotTrajectory.getWayPointDurationFromStart robot_trajectory
    <$> seq 0 (RobotTrajectory.getWayPointCount robot_trajectory).


(** ** Example data

    A two-joint arm on a plant with three coordinates: the elbow has ordinal
    0, the shoulder ordinal 2, and ordinal 1 belongs to no joint of the
    group. The shoulder declares position and jerk limits, the elbow
    velocity and acceleration limits. *)

Definition shoulder_bounds : VariableBounds :=
  {| min_position_ := (-1.5)%float; max_position_ := 1.5%float;
     position_bounded_ := true;
     min_velocity_ := 0%float; max_velocity_ := 0%float;
     velocity_bounded_ := false;
     min_acceleration_ := 0%float; max_acceleration_ := 0%float;
     acceleration_bounded_ := false;
     min_jerk_ := (-8)%float; max_jerk_ := 8%float; jerk_bounded_ := true |}.

Definition elbow_bounds : VariableBounds :=
  {| min_position_ := 0%float; max_position_ := 0%float;
     position_bounded_ := false;
     min_velocity_ := (-2)%float; max_velocity_ := 2%float;
     velocity_bounded_ := true;
     min_acceleration_ := (-4)%float; max_acceleration_ := 4%float;
     acceleration_bounded_ := true;
     min_jerk_ := 0%float; max_jerk_ := 0%float; jerk_bounded_ := false |}.

Definition shoulder : JointModel.t :=
  {| JointModel.getName := "shoulder";
     JointModel.getVariableBounds := [shoulder_bounds] |}.

Definition elbow : JointModel.t :=
  {| JointModel.getName := "elbow";
     JointModel.getVariableBounds := [elbow_bounds] |}.

Definition arm : JointModelGroup.t :=
  {| JointModelGroup.getName := "arm";
     JointModelGroup.getActiveJointModels := [shoulder; elbow] |}.

Definition robot : RobotModel.t :=
  {| RobotModel.groups := {[ "arm" := arm ]} |}.

Definition plant3 : MultibodyPlant.t :=
  {| MultibodyPlant.num_positions := 3;
     MultibodyPlant.num_velocities := 3;
     MultibodyPlant.num_accelerations := 3;
     MultibodyPlant.joints := {[ "elbow" := 0; "shoulder" := 2 ]} |}.

Definition pose : RobotState.t :=
  {| RobotState.getRobotModel := robot;
     RobotState.position := {[ "shoulder" := 0.5%float; "elbow" := (-0.25)%float ]};
     RobotState.velocity := {[ "shoulder" := 3%float; "elbow" := 7%float ]} |}.

(** A one-joint group on a one-coordinate plant, and the two-waypoint
    trajectory (t=0, pos=0), (t=2, pos=2) of it. *)
Definition slider : JointModel.t :=
  {| JointModel.getName := "slider"; JointModel.getVariableBounds := [elbow_bounds] |}.

Definition rail : JointModelGroup.t :=
  {| JointModelGroup.getName := "rail";
     JointModelGroup.getActiveJointModels := [slider] |}.

Definition rail_robot : RobotModel.t :=
  {| RobotModel.groups := {[ "rail" := rail ]} |}.

Definition plant1 : MultibodyPlant.t :=
  {| MultibodyPlant.num_positions := 1;
     MultibodyPlant.num_velocities := 1;
     MultibodyPlant.num_accelerations := 1;
     MultibodyPlant.joints := {[ "slider" := 0 ]} |}.

(** The same joint on a plant with a second coordinate. *)
Definition plant2 : MultibodyPlant.t :=
  {| MultibodyPlant.num_positions := 2;
     MultibodyPlant.num_velocities := 2;
     MultibodyPlant.num_accelerations := 2;
     MultibodyPlant.joints := {[ "slider" := 0 ]} |}.

Definition slider_at (x : float) : RobotState.t :=
  {| RobotState.getRobotModel := rail_robot;
     RobotState.position := {[ "slider" := x ]};
     RobotState.velocity := {[ "slider" := 0%float ]} |}.

Definition slider_moving (x v : float) : RobotState.t :=
  {| RobotState.getRobotModel := rail_robot;
     RobotState.position := {[ "slider" := x ]};
     RobotState.velocity := {[ "slider" := v ]} |}.

Definition two_waypoints : RobotTrajectory.t :=
  {| RobotTrajectory.getRobotModel := rail_robot;
     RobotTrajectory.getGroup := rail;
     RobotTrajectory.waypoints_ := [slider_at 0; slider_at 2];
     RobotTrajectory.duration_from_previous_ := [0%float; 2%float] |}.

(** An output trajectory that still holds a waypoint of an earlier use. *)
Definition used_output : RobotTrajectory.t :=
  {| RobotTrajectory.getRobotModel := rail_robot;
     RobotTrajectory.getGroup := rail;
     RobotTrajectory.waypoints_ := [slider_at 7];
     RobotTrajectory.duration_from_previous_ := [9%float] |}.

Definition empty_output : RobotTrajectory.t :=
  RobotTrajectory.clear used_output.

(** A first-order hold from time -1 to time 0: its [end_time()] is 0. *)
Definition ending_at_zero : PiecewisePolynomial.t :=
  {| PiecewisePolynomial.breaks := [(-1)%float; 0%float];
     PiecewisePolynomial.samples := [[3%float]; [3%float]] |}.

(** A first-order hold from 0 to the least positive double. *)
Definition shortest : PiecewisePolynomial.t :=
  {| PiecewisePolynomial.breaks := [0%float; 0x1p-1074%float];
     PiecewisePolynomial.samples := [[3%float]; [3%float]] |}.

(** The double that the literal 0.3 denotes. *)
Definition three_tenths : float := 0x1.3333333333333p-2%float.

(** A ramp from 0 to 1 over one second. *)
Definition unit_ramp : PiecewisePolynomial.t :=
  {| PiecewisePolynomial.breaks := [0%float; 1%float];
     PiecewisePolynomial.samples := [[0%float]; [1%float]] |}.

(** The ramp the two waypoints are fitted to. *)
Definition two_second_ramp : PiecewisePolynomial.t :=
  {| PiecewisePolynomial.breaks := [0%float; 2%float];
     PiecewisePolynomial.samples := [[0%float]; [2%float]] |}.

(** ** Conditions under which the functions return

    What a joint needs for the packer, the unpacking loop and an extractor
    to get past it. *)

(** The joint's name has an ordinal below [capacity] in the plant. *)
Definition resolves (plant : MultibodyPlant.t) (capacity : nat)
    (j : JointModel.t) : Prop :=
  ∃ i, ordinal_of plant j = Some i ∧ i < capacity.

(** An extractor of quantity [q] reads the joint's first variable and finds
    the joint in the plant; only a joint whose flag is set needs its ordinal
    inside the vectors. *)
Definition extractable (q : Quantity) (plant : MultibodyPlant.t)
    (j : JointModel.t) : Prop :=
  ∃ b i, head (JointModel.getVariableBounds j) = Some b
         ∧ ordinal_of plant j = Some i
         ∧ (flag q b = true → i < capacity q plant).

(** The arm with its joints listed the other way round. *)
Definition arm_reversed : JointModelGroup.t :=
  {| JointModelGroup.getName := "arm";
     JointModelGroup.getActiveJointModels := [elbow; shoulder] |}.

Definition robot_reversed : RobotModel.t :=
  {| RobotModel.groups := {[ "arm" := arm_reversed ]} |}.

Definition pose_reversed : RobotState.t :=
  {| RobotState.getRobotModel := robot_reversed;
     RobotState.position := RobotState.position pose;
     RobotState.velocity := RobotState.velocity pose |}.

(** * Properties *)

(** ** The result monad and loops *)

Lemma bind_Ok {A B} (a : A) (f : A → result B) : (Ok a ≫= f) = f a.
Proof. reflexivity. Qed.

Lemma bind_Fail {A B} (e : failure) (f : A → result B) : (Fail e ≫= f) = Fail e.
Proof. reflexivity. Qed.

Lemma set_coeff_Ok (v : VectorXd) i x :
  i < length v → set_coeff v i x = Ok (<[i := x]> v).
Proof. intros Hi. unfold set_coeff. by rewrite decide_True. Qed.

Lemma consistentb_spec active plant capacity :
  consistentb active plant capacity = true → consistent active plant capacity.
Proof.
  unfold consistentb, consistent.
  rewrite !andb_true_iff, Nat.leb_le, forallb_forall, bool_decide_eq_true.
  intros [[Hlen Hall] Hnd]. split_and!; [done| |done].
  apply Forall_forall. intros j Hj. apply list_elem_of_In, Hall in Hj.
  destruct (ordinal_of plant j) as [i|]; [|done].
  exists i. split; [done|]. by apply Nat.ltb_lt.
Qed.

(** The loop shared by the two packers: every joint writes its value at its
    ordinal. *)
Lemma pack_loop plant (get : string → result float) (val : string → float)
    (active : list JointModel.t) :
  NoDup (ordinal_of plant <$> active) →
  (∀ j, j ∈ active → get (JointModel.getName j) = Ok (val (JointModel.getName j))) →
  ∀ v : VectorXd,
    (∀ j, j ∈ active → ∃ i, ordinal_of plant j = Some i ∧ i < length v) →
    ∃ v' : VectorXd,
      for_each
        (λ (acc : VectorXd) joint_model,
           let joint_name := JointModel.getName joint_model in
           joint_index ← MultibodyPlant.GetJointByName_ordinal plant joint_name;
           x ← get joint_name;
           set_coeff acc joint_index x)
        active v = Ok v'
      ∧ length v' = length v
      ∧ (∀ j i, j ∈ active → ordinal_of plant j = Some i →
           v' !! i = Some (val (JointModel.getName j)))
      ∧ (∀ i, unmapped active plant i → v' !! i = v !! i).
Proof.
  intros Hnd Hget. induction active as [|j active IH]; intros v Hord.
  - exists v. split_and!; [done|done| |done]. intros j i Hj. by apply elem_of_nil in Hj.
  - apply NoDup_cons in Hnd as [Hj Hnd].
    destruct (Hord j) as (i & Hi & Hlt); [left|].
    destruct (IH Hnd (λ j' Hj', Hget j' (list_elem_of_further _ _ _ Hj')) (<[i := val (JointModel.getName j)]> v))
      as (v' & Hrun & Hlen & Hmapped & Hothers).
    { intros j' Hj'. rewrite length_insert. apply Hord. by right. }
    exists v'. cbn [for_each].
    unfold MultibodyPlant.GetJointByName_ordinal. unfold ordinal_of in Hi. rewrite Hi.
    rewrite bind_Ok, Hget by left. rewrite bind_Ok, set_coeff_Ok by done.
    rewrite bind_Ok. split_and!.
    + done.
    + by rewrite Hlen, length_insert.
    + intros j' i' Hj' Hi'. apply elem_of_cons in Hj' as [->|Hj'].
      * unfold ordinal_of in Hi'. rewrite Hi in Hi'. injection Hi' as <-.
        rewrite Hothers.
        -- by apply list_lookup_insert_eq.
        -- unfold unmapped. unfold ordinal_of in Hj. by rewrite <- Hi.
      * by apply Hmapped.
    + intros i' Hi'. unfold unmapped in Hi'. rewrite fmap_cons, not_elem_of_cons in Hi'.
      destruct Hi' as [Hne Hi']. rewrite Hothers by done.
      apply list_lookup_insert_ne. intros ->. apply Hne. by rewrite <- Hi.
Qed.

Lemma Zero_lookup n i : i < n → Zero n !! i = Some 0%float.
Proof. intros Hi. unfold Zero. by apply lookup_replicate_2. Qed.

Lemma getJointPositionVector_spec s group_name plant g :
  RobotModel.groups (RobotState.getRobotModel s) !! group_name = Some g →
  consistent (JointModelGroup.getActiveJointModels g) plant
    (MultibodyPlant.num_positions plant) →
  has_joints s (JointModelGroup.getActiveJointModels g) →
  ∃ v : VectorXd,
    getJointPositionVector s group_name plant = Ok v
    ∧ length v = MultibodyPlant.num_positions plant
    ∧ (∀ j i, j ∈ JointModelGroup.getActiveJointModels g →
         ordinal_of plant j = Some i →
         v !! i = RobotState.position s !! JointModel.getName j)
    ∧ (∀ i, i < MultibodyPlant.num_positions plant →
         unmapped (JointModelGroup.getActiveJointModels g) plant i →
         v !! i = Some 0%float).
Proof.
  intros Hg (Hcap & Hord & Hnd) Hhas.
  rewrite Forall_forall in Hord. unfold has_joints in Hhas. rewrite Forall_forall in Hhas.
  destruct (pack_loop plant (RobotState.getVariablePosition s)
              (λ name, default 0%float (RobotState.position s !! name))
              (JointModelGroup.getActiveJointModels g) Hnd)
    with (v := Zero (MultibodyPlant.num_positions plant))
    as (v & Hrun & Hlen & Hmapped & Hothers).
  - intros j Hj. destruct (Hhas j Hj) as [[x Hx] _].
    unfold RobotState.getVariablePosition. by rewrite Hx.
  - intros j Hj. unfold Zero. rewrite length_replicate. by apply Hord.
  - exists v. unfold getJointPositionVector, RobotModel.getJointModelGroup.
    rewrite Hg, bind_Ok. cbn zeta.
    apply Nat.leb_le in Hcap. rewrite Hcap. unfold assert. rewrite bind_Ok.
    split_and!.
    + exact Hrun.
    + rewrite Hlen. unfold Zero. apply length_replicate.
    + intros j i Hj Hi. rewrite (Hmapped j i Hj Hi).
      destruct (Hhas j Hj) as [[x Hx] _]. by rewrite Hx.
    + intros i Hi Hun. rewrite Hothers by done. by apply Zero_lookup.
Qed.

Lemma getJointVelocityVector_spec s group_name plant g :
  RobotModel.groups (RobotState.getRobotModel s) !! group_name = Some g →
  consistent (JointModelGroup.getActiveJointModels g) plant
    (MultibodyPlant.num_velocities plant) →
  has_joints s (JointModelGroup.getActiveJointModels g) →
  ∃ v : VectorXd,
    getJointVelocityVector s group_name plant = Ok v
    ∧ length v = MultibodyPlant.num_velocities plant
    ∧ (∀ j i, j ∈ JointModelGroup.getActiveJointModels g →
         ordinal_of plant j = Some i →
         v !! i = RobotState.velocity s !! JointModel.getName j)
    ∧ (∀ i, i < MultibodyPlant.num_velocities plant →
         unmapped (JointModelGroup.getActiveJointModels g) plant i →
         v !! i = Some 0%float).
Proof.
  intros Hg (Hcap & Hord & Hnd) Hhas.
  rewrite Forall_forall in Hord. unfold has_joints in Hhas. rewrite Forall_forall in Hhas.
  destruct (pack_loop plant (RobotState.getVariableVelocity s)
              (λ name, default 0%float (RobotState.velocity s !! name))
              (JointModelGroup.getActiveJointModels g) Hnd)
    with (v := Zero (MultibodyPlant.num_velocities plant))
    as (v & Hrun & Hlen & Hmapped & Hothers).
  - intros j Hj. destruct (Hhas j Hj) as [_ [x Hx]].
    unfold RobotState.getVariableVelocity. by rewrite Hx.
  - intros j Hj. unfold Zero. rewrite length_replicate. by apply Hord.
  - exists v. unfold getJointVelocityVector, RobotModel.getJointModelGroup.
    rewrite Hg, bind_Ok. cbn zeta.
    apply Nat.leb_le in Hcap. rewrite Hcap. unfold assert. rewrite bind_Ok.
    split_and!.
    + exact Hrun.
    + rewrite Hlen. unfold Zero. apply length_replicate.
    + intros j i Hj Hi. rewrite (Hmapped j i Hj Hi).
      destruct (Hhas j Hj) as [_ [x Hx]]. by rewrite Hx.
    + intros i Hi Hun. rewrite Hothers by done. by apply Zero_lookup.
Qed.

(** The inner loop of the resampler reads, for every joint, the two
    coefficients at its ordinal. *)
Lemma unpack_waypoint_spec plant (pos_val vel_val : VectorXd)
    (active : list JointModel.t) :
  (∀ j, j ∈ active →
     ∃ i, ordinal_of plant j = Some i ∧ i < length pos_val ∧ i < length vel_val) →
  ∀ w, ∃ w',
    unpack_waypoint active plant pos_val vel_val w = Ok w'
    ∧ RobotState.getRobotModel w' = RobotState.getRobotModel w
    ∧ (∀ j i, j ∈ active → ordinal_of plant j = Some i →
         RobotState.position w' !! JointModel.getName j = pos_val !! i
         ∧ RobotState.velocity w' !! JointModel.getName j = vel_val !! i)
    ∧ (∀ name, name ∉ JointModel.getName <$> active →
         RobotState.position w' !! name = RobotState.position w !! name
         ∧ RobotState.velocity w' !! name = RobotState.velocity w !! name).
Proof.
  unfold unpack_waypoint.
  induction active as [|j active IH]; intros Hord w.
  - exists w. split_and!; [done|done| |done]. intros j i Hj. by apply elem_of_nil in Hj.
  - destruct (Hord j) as (i & Hi & Hp & Hv); [left|].
    apply lookup_lt_is_Some_2 in Hp as [p Hp]. apply lookup_lt_is_Some_2 in Hv as [v Hv].
    set (w1 := RobotState.setJointVelocities (RobotState.setJointPositions w j p) j v).
    destruct (IH (λ j' Hj', Hord j' (list_elem_of_further _ _ _ Hj')) w1)
      as (w' & Hrun & Hmodel & Hmapped & Hothers).
    exists w'. cbn [for_each]. cbn zeta.
    unfold MultibodyPlant.GetJointByName_ordinal. unfold ordinal_of in Hi. rewrite Hi.
    rewrite bind_Ok. unfold coeff. rewrite Hp, Hv. rewrite !bind_Ok.
    split_and!.
    + exact Hrun.
    + by rewrite Hmodel.
    + intros j' i' Hj' Hi'.
      destruct (decide (JointModel.getName j' ∈ JointModel.getName <$> active)) as [Hin|Hout].
      * apply list_elem_of_fmap in Hin as (j'' & Hname & Hj'').
        rewrite Hname. apply Hmapped; [done|]. unfold ordinal_of in *. by rewrite <- Hname.
      * apply elem_of_cons in Hj' as [->|Hj'].
        -- destruct (Hothers _ Hout) as [-> ->]. unfold ordinal_of in Hi'.
           rewrite Hi in Hi'. injection Hi' as <-. subst w1. cbn.
           by rewrite !lookup_insert_eq.
        -- exfalso. apply Hout. apply list_elem_of_fmap. by exists j'.
    + intros name Hname. rewrite fmap_cons, not_elem_of_cons in Hname.
      destruct Hname as [Hne Hname]. destruct (Hothers _ Hname) as [-> ->].
      subst w1. cbn. by rewrite !lookup_insert_ne.
Qed.

(** ** Packing and unpacking *)

(** C8. For every state and every consistent group and plant, each packer
    returns a vector as long as the plant's capacity in which the ordinal of
    every active joint holds the joint's value (position, respectively
    velocity) and every ordinal that carries no active joint holds 0. *)
Theorem pack_dense_vector s group_name plant g :
  RobotModel.groups (RobotState.getRobotModel s) !! group_name = Some g →
  consistent (JointModelGroup.getActiveJointModels g) plant
    (MultibodyPlant.num_positions plant) →
  consistent (JointModelGroup.getActiveJointModels g) plant
    (MultibodyPlant.num_velocities plant) →
  has_joints s (JointModelGroup.getActiveJointModels g) →
  ∃ q v : VectorXd,
    getJointPositionVector s group_name plant = Ok q
    ∧ getJointVelocityVector s group_name plant = Ok v
    ∧ length q = MultibodyPlant.num_positions plant
    ∧ length v = MultibodyPlant.num_velocities plant
    ∧ (∀ j i, j ∈ JointModelGroup.getActiveJointModels g →
         ordinal_of plant j = Some i →
         q !! i = RobotState.position s !! JointModel.getName j
         ∧ v !! i = RobotState.velocity s !! JointModel.getName j)
    ∧ (∀ i, unmapped (JointModelGroup.getActiveJointModels g) plant i →
         (i < MultibodyPlant.num_positions plant → q !! i = Some 0%float)
         ∧ (i < MultibodyPlant.num_velocities plant → v !! i = Some 0%float)).
Proof.
  intros Hg Hq Hv Hhas.
  destruct (getJointPositionVector_spec s group_name plant g Hg Hq Hhas)
    as (q & Hpack_q & Hlen_q & Hmapped_q & Hzero_q).
  destruct (getJointVelocityVector_spec s group_name plant g Hg Hv Hhas)
    as (v & Hpack_v & Hlen_v & Hmapped_v & Hzero_v).
  exists q, v. split_and!; try done.
  - intros j i Hj Hi. split; [by apply Hmapped_q | by apply Hmapped_v].
  - intros i Hun. split; intros Hi; [by apply Hzero_q | by apply Hzero_v].
Qed.

Lemma has_joints_pose : has_joints pose (JointModelGroup.getActiveJointModels arm).
Proof.
  unfold has_joints.
  repeat (apply Forall_cons_2; [split; eexists; vm_compute; reflexivity|]).
  apply Forall_nil_2.
Qed.

Lemma pack_dense_vector_witness :
  ∃ q v : VectorXd,
    getJointPositionVector pose "arm" plant3 = Ok q
    ∧ getJointVelocityVector pose "arm" plant3 = Ok v
    ∧ length q = 3
    ∧ length v = 3
    ∧ (∀ j i, j ∈ [shoulder; elbow] →
         ordinal_of plant3 j = Some i →
         q !! i = RobotState.position pose !! JointModel.getName j
         ∧ v !! i = RobotState.velocity pose !! JointModel.getName j)
    ∧ (∀ i, unmapped [shoulder; elbow] plant3 i →
         (i < 3 → q !! i = Some 0%float) ∧ (i < 3 → v !! i = Some 0%float)).
Proof.
  apply (pack_dense_vector pose "arm" plant3 arm).
  - reflexivity.
  - apply consistentb_spec. vm_compute. reflexivity.
  - apply consistentb_spec. vm_compute. reflexivity.
  - exact has_joints_pose.
Defined.

(** Two doubles that the specification tells apart are different. *)
Lemma float_neq (x y : float) : Prim2SF x ≠ Prim2SF y → x ≠ y.
Proof. intros Hne ->. by apply Hne. Qed.

(** C1 (as amended). For a consistent group and plant: packing a state's
    positions and velocities and unpacking the two vectors into a fresh
    state gives back the state's values on every joint of the group (and
    sets nothing else). The other way round, unpacking two vectors and
    packing the state again gives back the coefficient at every ordinal of
    an active joint and 0 at every other ordinal; so the vectors come back
    unchanged exactly when they are 0 off the group's ordinals. *)
Theorem pack_unpack_round_trip m group_name plant g :
  RobotModel.groups m !! group_name = Some g →
  consistent (JointModelGroup.getActiveJointModels g) plant
    (MultibodyPlant.num_positions plant) →
  consistent (JointModelGroup.getActiveJointModels g) plant
    (MultibodyPlant.num_velocities plant) →
  let active := JointModelGroup.getActiveJointModels g in
  (∀ s, RobotState.getRobotModel s = m → has_joints s active →
     ∃ (q v : VectorXd) w,
       getJointPositionVector s group_name plant = Ok q
       ∧ getJointVelocityVector s group_name plant = Ok v
       ∧ unpack_waypoint active plant q v (RobotState.make m) = Ok w
       ∧ (∀ j, j ∈ active →
            RobotState.position w !! JointModel.getName j
              = RobotState.position s !! JointModel.getName j
            ∧ RobotState.velocity w !! JointModel.getName j
              = RobotState.velocity s !! JointModel.getName j)
       ∧ (∀ name, name ∉ JointModel.getName <$> active →
            RobotState.position w !! name = None
            ∧ RobotState.velocity w !! name = None))
  ∧ (∀ q v : VectorXd,
       length q = MultibodyPlant.num_positions plant →
       length v = MultibodyPlant.num_velocities plant →
       ∃ w (q' v' : VectorXd),
         unpack_waypoint active plant q v (RobotState.make m) = Ok w
         ∧ getJointPositionVector w group_name plant = Ok q'
         ∧ getJointVelocityVector w group_name plant = Ok v'
         ∧ (∀ j i, j ∈ active → ordinal_of plant j = Some i →
              q' !! i = q !! i ∧ v' !! i = v !! i)
         ∧ (∀ i, unmapped active plant i →
              (i < length q → q' !! i = Some 0%float)
              ∧ (i < length v → v' !! i = Some 0%float))
         ∧ ((∀ i, unmapped active plant i → i < length q →
               q !! i = Some 0%float) → q' = q)
         ∧ ((∀ i, unmapped active plant i → i < length v →
               v !! i = Some 0%float) → v' = v)).
Proof.
  intros Hg Hq Hv active. split.
  - intros s <- Hhas.
    destruct (getJointPositionVector_spec s group_name plant g Hg Hq Hhas)
      as (q & Hpack_q & Hlen_q & Hmapped_q & _).
    destruct (getJointVelocityVector_spec s group_name plant g Hg Hv Hhas)
      as (v & Hpack_v & Hlen_v & Hmapped_v & _).
    destruct Hq as (_ & Hord_q & _). destruct Hv as (_ & Hord_v & _).
    rewrite Forall_forall in Hord_q, Hord_v.
    destruct (unpack_waypoint_spec plant q v active) with
      (w := RobotState.make (RobotState.getRobotModel s))
      as (w & Hrun & _ & Hmapped & Hothers).
    { intros j Hj. destruct (Hord_q j Hj) as (i & Hi & Hlt).
      destruct (Hord_v j Hj) as (i' & Hi' & Hlt').
      exists i. rewrite Hi in Hi'. injection Hi' as <-.
      rewrite Hlen_q, Hlen_v. done. }
    exists q, v, w. do 3 (split; [done|]). split.
    + intros j Hj. destruct (Hord_q j Hj) as (i & Hi & _).
      destruct (Hmapped j i Hj Hi) as [-> ->].
      split; [by apply Hmapped_q | by apply Hmapped_v].
    + intros name Hname. destruct (Hothers name Hname) as [-> ->]. cbn.
      by rewrite !lookup_empty.
  - intros q v Hlen_q Hlen_v.
    pose proof Hq as (_ & Hord_q & _). pose proof Hv as (_ & Hord_v & _).
    rewrite Forall_forall in Hord_q, Hord_v.
    destruct (unpack_waypoint_spec plant q v active) with (w := RobotState.make m)
      as (w & Hrun & Hmodel & Hmapped & _).
    { intros j Hj. destruct (Hord_q j Hj) as (i & Hi & Hlt).
      destruct (Hord_v j Hj) as (i' & Hi' & Hlt').
      exists i. rewrite Hi in Hi'. injection Hi' as <-.
      rewrite Hlen_q, Hlen_v. done. }
    assert (Hhas : has_joints w active).
    { apply Forall_forall. intros j Hj.
      destruct (Hord_q j Hj) as (i & Hi & Hlt).
      destruct (Hord_v j Hj) as (i' & Hi' & Hlt').
      rewrite Hi in Hi'. injection Hi' as <-.
      destruct (Hmapped j i Hj Hi) as [-> ->].
      split; apply lookup_lt_is_Some_2; lia. }
    assert (Hgw : RobotModel.groups (RobotState.getRobotModel w) !! group_name = Some g).
    { by rewrite Hmodel. }
    destruct (getJointPositionVector_spec w group_name plant g Hgw Hq Hhas)
      as (q' & Hpack_q & Hlen_q' & Hmapped_q & Hzero_q).
    destruct (getJointVelocityVector_spec w group_name plant g Hgw Hv Hhas)
      as (v' & Hpack_v & Hlen_v' & Hmapped_v & Hzero_v).
    assert (Hsame : ∀ j i, j ∈ active → ordinal_of plant j = Some i →
              q' !! i = q !! i ∧ v' !! i = v !! i).
    { intros j i Hj Hi. rewrite (Hmapped_q j i Hj Hi), (Hmapped_v j i Hj Hi).
      by destruct (Hmapped j i Hj Hi) as [-> ->]. }
    exists w, q', v'. do 4 (split; [done|]). split; [|split].
    + intros i Hun. split; intros Hi.
      * apply Hzero_q; [lia|done].
      * apply Hzero_v; [lia|done].
    + intros Hoff. apply list_eq. intros i.
      destruct (decide (i < length q)) as [Hi|Hi].
      * destruct (decide (Some i ∈ ordinal_of plant <$> active)) as [Hin|Hout].
        -- apply list_elem_of_fmap in Hin as (j & Hj & Hin).
           by destruct (Hsame j i Hin).
        -- rewrite Hoff by done. apply Hzero_q; [lia|done].
      * rewrite !lookup_ge_None_2; [done|lia|lia].
    + intros Hoff. apply list_eq. intros i.
      destruct (decide (i < length v)) as [Hi|Hi].
      * destruct (decide (Some i ∈ ordinal_of plant <$> active)) as [Hin|Hout].
        -- apply list_elem_of_fmap in Hin as (j & Hj & Hin).
           by destruct (Hsame j i Hin).
        -- rewrite Hoff by done. apply Hzero_v; [lia|done].
      * rewrite !lookup_ge_None_2; [done|lia|lia].
Qed.

Lemma pack_unpack_round_trip_witness :
  ∃ (q v : VectorXd) w,
    getJointPositionVector pose "arm" plant3 = Ok q
    ∧ getJointVelocityVector pose "arm" plant3 = Ok v
    ∧ unpack_waypoint [shoulder; elbow] plant3 q v (RobotState.make robot) = Ok w
    ∧ (∀ j, j ∈ [shoulder; elbow] →
         RobotState.position w !! JointModel.getName j
           = RobotState.position pose !! JointModel.getName j
         ∧ RobotState.velocity w !! JointModel.getName j
           = RobotState.velocity pose !! JointModel.getName j)
    ∧ (∀ name, name ∉ JointModel.getName <$> [shoulder; elbow] →
         RobotState.position w !! name = None
         ∧ RobotState.velocity w !! name = None).
Proof.
  refine (proj1 (pack_unpack_round_trip robot "arm" plant3 arm _ _ _) pose _ _).
  - reflexivity.
  - apply consistentb_spec. vm_compute. reflexivity.
  - apply consistentb_spec. vm_compute. reflexivity.
  - reflexivity.
  - exact has_joints_pose.
Defined.

(** C1, the claim as stated, fails for "unpack then pack": on the
    two-coordinate plant the slider has ordinal 0, so unpacking (1, 5) keeps
    the 1 only and packing again gives (1, 0). *)
Lemma unpack_pack_not_identity :
  consistent [slider] plant2 2
  ∧ unpack_waypoint [slider] plant2 [1%float; 5%float] [0%float; 0%float]
      (RobotState.make rail_robot) = Ok (slider_moving 1 0)
  ∧ getJointPositionVector (slider_moving 1 0) "rail" plant2
      = Ok [1%float; 0%float]
  ∧ [1%float; 0%float] ≠ [1%float; 5%float].
Proof.
  split_and!.
  - apply consistentb_spec. vm_compute. reflexivity.
  - vm_compute. reflexivity.
  - vm_compute. reflexivity.
  - intros H. apply (f_equal (λ l : VectorXd, default 0%float (l !! 1))) in H.
    revert H. apply float_neq. vm_compute. discriminate.
Qed.

(** ** Bounds *)

Lemma resize_length n (v : VectorXd) : length (resize n v) = n.
Proof.
  unfold resize. rewrite length_take, length_app, length_replicate. lia.
Qed.

(** The first loop of an extractor writes the two defaults at every ordinal
    it visits and nothing else. *)
Lemma default_loop (lowest highest : float) (m : nat) :
  ∀ (k : nat) (lower upper : VectorXd),
    k + m ≤ length lower → k + m ≤ length upper →
    ∃ lower' upper' : VectorXd,
      for_each
        (λ '(lower, upper) i,
           lower' ← set_coeff lower i lowest;
           upper' ← set_coeff upper i highest;
           Ok (lower', upper'))
        (seq k m) (lower, upper) = Ok (lower', upper')
      ∧ length lower' = length lower
      ∧ length upper' = length upper
      ∧ (∀ i, k ≤ i < k + m →
           lower' !! i = Some lowest ∧ upper' !! i = Some highest)
      ∧ (∀ i, i < k → lower' !! i = lower !! i ∧ upper' !! i = upper !! i).
Proof.
  induction m as [|m IH]; intros k lower upper Hl Hu.
  - exists lower, upper. split_and!; try done. intros i Hi. lia.
  - destruct (IH (S k) (<[k := lowest]> lower) (<[k := highest]> upper))
      as (lower' & upper' & Hrun & Hlen_l & Hlen_u & Hin & Hbefore).
    { rewrite length_insert. lia. }
    { rewrite length_insert. lia. }
    exists lower', upper'. cbn [seq for_each].
    rewrite !set_coeff_Ok by lia. rewrite !bind_Ok.
    split_and!.
    + exact Hrun.
    + by rewrite Hlen_l, length_insert.
    + by rewrite Hlen_u, length_insert.
    + intros i Hi. destruct (decide (i = k)) as [->|Hne].
      * destruct (Hbefore k) as [-> ->]; [lia|].
        rewrite !list_lookup_insert_eq by lia. done.
      * apply Hin. lia.
    + intros i Hi. destruct (Hbefore i) as [-> ->]; [lia|].
      rewrite !list_lookup_insert_ne by lia. done.
Qed.

(** The second loop writes the declared limits of the joints whose flag is
    set, each at the joint's ordinal. *)
Lemma limits_loop plant (bounded : VariableBounds → bool)
    (vmin vmax : VariableBounds → float) (active : list JointModel.t) :
  NoDup (ordinal_of plant <$> active) →
  single_dof active →
  ∀ lower upper : VectorXd,
    (∀ j, j ∈ active →
       ∃ i, ordinal_of plant j = Some i ∧ i < length lower ∧ i < length upper) →
    ∃ lower' upper' : VectorXd,
      for_each
        (λ '(lower, upper) joint_model,
           let joint_name := JointModel.getName joint_model in
           bounds ← match JointModel.getVariableBounds joint_model with
                    | b :: _ => Ok b
                    | [] => Fail (NoVariableBounds joint_name)
                    end;
           joint_index ← MultibodyPlant.GetJointByName_ordinal plant joint_name;
           if bounded bounds then
             lower' ← set_coeff lower joint_index (vmin bounds);
             upper' ← set_coeff upper joint_index (vmax bounds);
             Ok (lower', upper')
           else Ok (lower, upper))
        active (lower, upper) = Ok (lower', upper')
      ∧ length lower' = length lower
      ∧ length upper' = length upper
      ∧ (∀ j i b, j ∈ active → ordinal_of plant j = Some i →
           head (JointModel.getVariableBounds j) = Some b →
           lower' !! i = (if bounded b then Some (vmin b) else lower !! i)
           ∧ upper' !! i = (if bounded b then Some (vmax b) else upper !! i))
      ∧ (∀ i, unmapped active plant i →
           lower' !! i = lower !! i ∧ upper' !! i = upper !! i).
Proof.
  intros Hnd Hdof. induction active as [|j active IH]; intros lower upper Hord.
  - exists lower, upper. split_and!; try done.
    intros j i b Hj. by apply elem_of_nil in Hj.
  - apply NoDup_cons in Hnd as [Hj Hnd].
    apply Forall_cons in Hdof as [Hb Hdof].
    destruct (Hord j) as (i & Hi & Hlo & Hup); [left|].
    destruct (JointModel.getVariableBounds j) as [|b bs] eqn:Hbounds; [done|].
    set (lower1 := if bounded b then <[i := vmin b]> lower else lower).
    set (upper1 := if bounded b then <[i := vmax b]> upper else upper).
    assert (Hlen1 : length lower1 = length lower ∧ length upper1 = length upper).
    { subst lower1 upper1. destruct (bounded b); by rewrite ?length_insert. }
    destruct Hlen1 as [Hlen_l1 Hlen_u1].
    destruct (IH Hnd Hdof lower1 upper1) as
      (lower' & upper' & Hrun & Hlen_l & Hlen_u & Hmapped & Hothers).
    { intros j' Hj'. rewrite Hlen_l1, Hlen_u1. apply Hord. by right. }
    exists lower', upper'. cbn [for_each]. cbn zeta. rewrite Hbounds, bind_Ok.
    unfold MultibodyPlant.GetJointByName_ordinal. unfold ordinal_of in Hi.
    rewrite Hi, bind_Ok.
    assert (Hstep :
      (if bounded b then
         lower' ← set_coeff lower i (vmin b);
         upper' ← set_coeff upper i (vmax b);
         Ok (lower', upper')
       else Ok (lower, upper)) = Ok (lower1, upper1)).
    { subst lower1 upper1. destruct (bounded b); [|done].
      by rewrite !set_coeff_Ok, !bind_Ok. }
    rewrite Hstep, bind_Ok.
    split_and!.
    + exact Hrun.
    + by rewrite Hlen_l.
    + by rewrite Hlen_u.
    + intros j' i' b' Hj' Hi' Hb'. apply elem_of_cons in Hj' as [->|Hj'].
      * unfold ordinal_of in Hi'. rewrite Hi in Hi'. injection Hi' as <-.
        rewrite Hbounds in Hb'. cbn in Hb'. injection Hb' as <-.
        assert (Hun : unmapped active plant i).
        { unfold unmapped. unfold ordinal_of in Hj. by rewrite <- Hi. }
        destruct (Hothers i Hun) as [-> ->].
        subst lower1 upper1. destruct (bounded b); [|done].
        by rewrite !list_lookup_insert_eq.
      * destruct (Hmapped j' i' b' Hj' Hi' Hb') as [-> ->].
        destruct (bounded b'); [done|].
        assert (i' ≠ i).
        { intros ->. apply Hj. unfold ordinal_of at 1. rewrite Hi.
          apply list_elem_of_fmap. exists j'. by rewrite Hi'. }
        subst lower1 upper1. destruct (bounded b); [|done].
        by rewrite !list_lookup_insert_ne.
    + intros i' Hi'. unfold unmapped in Hi'.
      rewrite fmap_cons, not_elem_of_cons in Hi'. destruct Hi' as [Hne Hi'].
      destruct (Hothers i' Hi') as [-> ->].
      assert (i ≠ i') by (intros ->; apply Hne; unfold ordinal_of; by rewrite Hi).
      subst lower1 upper1. destruct (bounded b); [|done].
      by rewrite !list_lookup_insert_ne.
Qed.

Lemma extract_bounds_spec asserted capacity lowest highest bounded vmin vmax
    g plant (lower0 upper0 : VectorXd) :
  let active := JointModelGroup.getActiveJointModels g in
  length active ≤ asserted →
  consistent active plant capacity →
  single_dof active →
  ∃ lower upper : VectorXd,
    extract_bounds asserted capacity lowest highest bounded vmin vmax
      g plant lower0 upper0 = Ok (lower, upper)
    ∧ length lower = capacity
    ∧ length upper = capacity
    ∧ (∀ j i b, j ∈ active → ordinal_of plant j = Some i →
         head (JointModel.getVariableBounds j) = Some b →
         lower !! i = Some (if bounded b then vmin b else lowest)
         ∧ upper !! i = Some (if bounded b then vmax b else highest))
    ∧ (∀ i, i < capacity → unmapped active plant i →
         lower !! i = Some lowest ∧ upper !! i = Some highest).
Proof.
  intros active Hassert (Hcap & Hord & Hnd) Hdof.
  rewrite Forall_forall in Hord.
  destruct (default_loop lowest highest capacity 0
              (resize capacity lower0) (resize capacity upper0))
    as (lower1 & upper1 & Hfill & Hlen_l1 & Hlen_u1 & Hdefault & _).
  { rewrite resize_length. lia. }
  { rewrite resize_length. lia. }
  rewrite resize_length in Hlen_l1, Hlen_u1.
  destruct (limits_loop plant bounded vmin vmax active Hnd Hdof lower1 upper1)
    as (lower & upper & Hrun & Hlen_l & Hlen_u & Hmapped & Hothers).
  { intros j Hj. destruct (Hord j Hj) as (i & Hi & Hlt).
    exists i. rewrite Hlen_l1, Hlen_u1. done. }
  exists lower, upper. unfold extract_bounds. fold active.
  apply Nat.leb_le in Hassert. rewrite Hassert. unfold assert. rewrite bind_Ok.
  rewrite Hfill, bind_Ok.
  split_and!.
  - exact Hrun.
  - by rewrite Hlen_l.
  - by rewrite Hlen_u.
  - intros j i b Hj Hi Hb. destruct (Hmapped j i b Hj Hi Hb) as [-> ->].
    destruct (Hord j Hj) as (i' & Hi' & Hlt). rewrite Hi in Hi'.
    injection Hi' as <-.
    destruct (Hdefault i) as [-> ->]; [lia|]. by destruct (bounded b).
  - intros i Hi Hun. destruct (Hothers i Hun) as [-> ->].
    apply Hdefault. lia.
Qed.

Lemma extractor_unfold q g plant (lower0 upper0 : VectorXd) :
  extractor q g plant lower0 upper0
  = extract_bounds (asserted q plant) (capacity q plant)
      (default_lower q) (default_upper q)
      (flag q) (declared_min q) (declared_max q) g plant lower0 upper0.
Proof. by destruct q. Qed.

(** Two loops over lists whose elements the bodies treat alike end alike. *)
Lemma for_each_Forall2 {A B S} (R : A → B → Prop)
    (body : S → A → result S) (body' : S → B → result S) l l' :
  Forall2 R l l' →
  (∀ s x y, R x y → body s x = body' s y) →
  ∀ s, for_each body l s = for_each body' l' s.
Proof.
  intros Hall Hbody. induction Hall as [|x y l l' Hxy Hall IH]; intros s.
  - done.
  - cbn [for_each]. rewrite (Hbody s x y Hxy).
    destruct (body' s y) as [s'|e]; [|done]. rewrite !bind_Ok. apply IH.
Qed.

Lemma extractor_same_limits q g g' plant (lower0 upper0 : VectorXd) :
  Forall2 (same_limits q) (JointModelGroup.getActiveJointModels g)
    (JointModelGroup.getActiveJointModels g') →
  extractor q g plant lower0 upper0 = extractor q g' plant lower0 upper0.
Proof.
  intros Hsame. rewrite !extractor_unfold. unfold extract_bounds.
  rewrite (Forall2_length _ _ _ Hsame).
  destruct (assert _) as [[]|e]; [|done]. rewrite !bind_Ok.
  destruct (for_each _ (seq 0 (capacity q plant)) _) as [filled|e]; [|done].
  rewrite !bind_Ok.
  apply (for_each_Forall2 (same_limits q)); [done|].
  intros [lower upper] j j' [Hname Hlimits]. cbn zeta. rewrite <- Hname.
  destruct (JointModel.getVariableBounds j) as [|b bs],
    (JointModel.getVariableBounds j') as [|b' bs']; try done.
  destruct Hlimits as [Hflag Hvalues]. rewrite !bind_Ok.
  destruct (MultibodyPlant.GetJointByName_ordinal plant (JointModel.getName j))
    as [i|e]; [|done].
  rewrite !bind_Ok. rewrite <- Hflag.
  destruct (flag q b); [|done].
  destruct Hvalues as [-> ->]; done.
Qed.

(** C3 (as amended). Every extractor first gives every ordinal the default
    of its quantity, so that an active joint whose flag for the quantity is
    not set, and every ordinal without an active joint, holds the default in
    the two vectors. For velocity, acceleration and jerk the default is
    (-100.0, 100.0); for position it is the pair of the lowest and the
    largest finite double, (-DBL_MAX, DBL_MAX), not infinities. *)
Theorem defaults_when_unbounded q g plant (lower0 upper0 : VectorXd) :
  let active := JointModelGroup.getActiveJointModels g in
  length active ≤ asserted q plant →
  consistent active plant (capacity q plant) →
  single_dof active →
  ∃ lower upper : VectorXd,
    extractor q g plant lower0 upper0 = Ok (lower, upper)
    ∧ length lower = capacity q plant
    ∧ length upper = capacity q plant
    ∧ (∀ j i b, j ∈ active → ordinal_of plant j = Some i →
         head (JointModel.getVariableBounds j) = Some b →
         flag q b = false →
         lower !! i = Some (default_lower q)
         ∧ upper !! i = Some (default_upper q))
    ∧ (∀ i, i < capacity q plant → unmapped active plant i →
         lower !! i = Some (default_lower q)
         ∧ upper !! i = Some (default_upper q))
    ∧ default_lower q = match q with
                        | Position => (-0x1.fffffffffffffp+1023)%float
                        | _ => (-100.0)%float
                        end
    ∧ default_upper q = match q with
                        | Position => 0x1.fffffffffffffp+1023%float
                        | _ => 100.0%float
                        end
    ∧ is_finite (default_lower q) = true
    ∧ is_finite (default_upper q) = true.
Proof.
  intros active Hassert Hcons Hdof.
  destruct (extract_bounds_spec (asserted q plant) (capacity q plant)
              (default_lower q) (default_upper q)
              (flag q) (declared_min q) (declared_max q)
              g plant lower0 upper0 Hassert Hcons Hdof)
    as (lower & upper & Hrun & Hlen_l & Hlen_u & Hmapped & Hothers).
  exists lower, upper. rewrite extractor_unfold.
  split_and!; try done; try (by destruct q).
  intros j i b Hj Hi Hb Hflag.
  destruct (Hmapped j i b Hj Hi Hb) as [-> ->]. by rewrite Hflag.
Qed.

Lemma single_dof_arm : single_dof (JointModelGroup.getActiveJointModels arm).
Proof. unfold single_dof. by repeat apply Forall_cons_2; [..|apply Forall_nil_2]. Qed.

Lemma defaults_when_unbounded_witness :
  ∃ lower upper : VectorXd,
    extractor Velocity arm plant3 [] [] = Ok (lower, upper)
    ∧ length lower = 3
    ∧ length upper = 3
    ∧ (∀ j i b, j ∈ [shoulder; elbow] → ordinal_of plant3 j = Some i →
         head (JointModel.getVariableBounds j) = Some b →
         velocity_bounded_ b = false →
         lower !! i = Some (- kMaxVelocity)%float
         ∧ upper !! i = Some kMaxVelocity)
    ∧ (∀ i, i < 3 → unmapped [shoulder; elbow] plant3 i →
         lower !! i = Some (- kMaxVelocity)%float
         ∧ upper !! i = Some kMaxVelocity)
    ∧ (- kMaxVelocity)%float = (-100.0)%float
    ∧ kMaxVelocity = 100.0%float
    ∧ is_finite (- kMaxVelocity) = true
    ∧ is_finite kMaxVelocity = true.
Proof.
  apply (defaults_when_unbounded Velocity arm plant3 [] []).
  - vm_compute. lia.
  - apply consistentb_spec. vm_compute. reflexivity.
  - exact single_dof_arm.
Defined.

(** C3, the claim as stated, fails for positions: the elbow declares no
    position limits, and at its ordinal 0 the position bounds are the finite
    -DBL_MAX and DBL_MAX, which are not the infinities. *)
Lemma position_default_not_infinite :
  position_bounded_ elbow_bounds = false
  ∧ ordinal_of plant3 elbow = Some 0
  ∧ getPositionBounds arm plant3 [] []
    = Ok ([Double.numeric_limits_lowest; Double.numeric_limits_lowest;
           (-1.5)%float],
          [Double.numeric_limits_max; Double.numeric_limits_max; 1.5%float])
  ∧ Double.numeric_limits_lowest ≠ neg_infinity
  ∧ Double.numeric_limits_max ≠ infinity.
Proof.
  split_and!.
  - reflexivity.
  - vm_compute. reflexivity.
  - vm_compute. reflexivity.
  - apply float_neq. vm_compute. discriminate.
  - apply float_neq. vm_compute. discriminate.
Qed.

(** C9. For each of the four quantities, the extractor writes the declared
    minimum and maximum of every active joint whose flag for the quantity is
    set at the joint's ordinal, and leaves the quantity's default at the
    ordinal of every active joint whose flag is not set. The result depends
    on the names, the flags of this quantity and the limits it declares
    only: a group that differs in the other quantities gives the same two
    vectors. *)
Theorem bounds_per_quantity q g plant (lower0 upper0 : VectorXd) :
  let active := JointModelGroup.getActiveJointModels g in
  length active ≤ asserted q plant →
  consistent active plant (capacity q plant) →
  single_dof active →
  ∃ lower upper : VectorXd,
    extractor q g plant lower0 upper0 = Ok (lower, upper)
    ∧ (∀ j i b, j ∈ active → ordinal_of plant j = Some i →
         head (JointModel.getVariableBounds j) = Some b →
         (flag q b = true →
          lower !! i = Some (declared_min q b)
          ∧ upper !! i = Some (declared_max q b))
         ∧ (flag q b = false →
            lower !! i = Some (default_lower q)
            ∧ upper !! i = Some (default_upper q)))
    ∧ (∀ g', Forall2 (same_limits q) active
               (JointModelGroup.getActiveJointModels g') →
         extractor q g' plant lower0 upper0 = Ok (lower, upper)).
Proof.
  intros active Hassert Hcons Hdof.
  destruct (extract_bounds_spec (asserted q plant) (capacity q plant)
              (default_lower q) (default_upper q)
              (flag q) (declared_min q) (declared_max q)
              g plant lower0 upper0 Hassert Hcons Hdof)
    as (lower & upper & Hrun & _ & _ & Hmapped & _).
  rewrite <- extractor_unfold in Hrun.
  exists lower, upper. split_and!.
  - exact Hrun.
  - intros j i b Hj Hi Hb.
    destruct (Hmapped j i b Hj Hi Hb) as [-> ->].
    split; intros ->; done.
  - intros g' Hsame. rewrite <- Hrun. symmetry.
    by apply extractor_same_limits.
Qed.

Lemma bounds_per_quantity_witness :
  ∃ lower upper : VectorXd,
    extractor Acceleration arm plant3 [] [] = Ok (lower, upper)
    ∧ (∀ j i b, j ∈ [shoulder; elbow] → ordinal_of plant3 j = Some i →
         head (JointModel.getVariableBounds j) = Some b →
         (acceleration_bounded_ b = true →
          lower !! i = Some (min_acceleration_ b)
          ∧ upper !! i = Some (max_acceleration_ b))
         ∧ (acceleration_bounded_ b = false →
            lower !! i = Some (- kMaxAcceleration)%float
            ∧ upper !! i = Some kMaxAcceleration))
    ∧ (∀ g', Forall2 (same_limits Acceleration) [shoulder; elbow]
               (JointModelGroup.getActiveJointModels g') →
         extractor Acceleration g' plant3 [] [] = Ok (lower, upper)).
Proof.
  apply (bounds_per_quantity Acceleration arm plant3 [] []).
  - vm_compute. lia.
  - apply consistentb_spec. vm_compute. reflexivity.
  - exact single_dof_arm.
Defined.

(** ** The resampler *)

(** When the trajectory's vectors cover the joints, the sampling loop appends
    one waypoint per index, with the time since the previous sample. *)
Lemma sample_loop_spec drake_trajectory plant active num_pts :
  covers drake_trajectory plant active →
  ∀ indices out t_prev,
    ∃ out',
      sample_loop drake_trajectory plant active num_pts indices out t_prev
        = (out', None)
      ∧ RobotTrajectory.getRobotModel out' = RobotTrajectory.getRobotModel out
      ∧ RobotTrajectory.getGroup out' = RobotTrajectory.getGroup out
      ∧ length (RobotTrajectory.waypoints_ out')
        = length (RobotTrajectory.waypoints_ out) + length indices
      ∧ RobotTrajectory.duration_from_previous_ out'
        = RobotTrajectory.duration_from_previous_ out
          ++ deltas t_prev
               ((λ i, sample_time (Trajectory.end_time drake_trajectory) i num_pts)
                  <$> indices).
Proof.
  intros Hcov indices.
  induction indices as [|i indices IH]; intros out t_prev.
  - exists out. cbn. split_and!; try done; try lia. by rewrite app_nil_r.
  - cbn [sample_loop]. cbn zeta.
    set (t := sample_time (Trajectory.end_time drake_trajectory) i num_pts).
    destruct (unpack_waypoint_spec plant
                (Trajectory.value drake_trajectory t)
                (Trajectory.EvalDerivative drake_trajectory t) active
                (Hcov t)
                (RobotState.make (RobotTrajectory.getRobotModel out)))
      as (w & -> & _).
    destruct (IH (RobotTrajectory.addSuffixWayPoint out w (t - t_prev)%float) t)
      as (out' & Hrun & Hmodel & Hgroup & Hcount & Hdur).
    exists out'. split_and!; try done.
    + rewrite Hcount. cbn. rewrite length_app. cbn. lia.
    + rewrite Hdur. cbn. by rewrite <- app_assoc.
Qed.


Lemma covers_unit_ramp :
  covers (PiecewisePolynomial.as_trajectory unit_ramp) plant1 [slider].
Proof.
  intros t j Hj. apply list_elem_of_singleton in Hj as ->.
  exists 0. split; [by vm_compute|]. cbn. lia.
Qed.


(** ** Degenerate input *)





(** The fitter's loop: break [i] is the duration from the start of waypoint
    [i], sample [i] is the packed waypoint [i]. *)
Lemma fit_loop robot_trajectory group_name plant indices :
  ∀ breaks samples breaks' samples',
    for_each
      (λ '(breaks, samples) i,
         state ← RobotTrajectory.getWayPoint robot_trajectory i;
         sample ← getJointPositionVector state group_name plant;
         Ok (breaks ++
               [RobotTrajectory.getWayPointDurationFromStart robot_trajectory i],
             samples ++ [sample]))
      indices (breaks, samples) = Ok (breaks', samples') →
    breaks' = breaks
              ++ (RobotTrajectory.getWayPointDurationFromStart robot_trajectory
                    <$> indices)
    ∧ ∃ packed,
        samples' = samples ++ packed
        ∧ Forall2
            (λ i q, ∃ state,
               RobotTrajectory.waypoints_ robot_trajectory !! i = Some state
               ∧ getJointPositionVector state group_name plant = Ok q)
            indices packed.
Proof.
  induction indices as [|i indices IH]; intros breaks samples breaks' samples' Hrun.
  - injection Hrun as <- <-. rewrite app_nil_r. split; [done|].
    exists []. by rewrite app_nil_r.
  - cbn [for_each] in Hrun. unfold RobotTrajectory.getWayPoint in Hrun.
    destruct (RobotTrajectory.waypoints_ robot_trajectory !! i) as [state|] eqn:Hstate;
      [|done].
    rewrite bind_Ok in Hrun.
    destruct (getJointPositionVector state group_name plant) as [q|] eqn:Hq; [|done].
    rewrite !bind_Ok in Hrun.
    apply IH in Hrun as (-> & packed & -> & Hall).
    rewrite <- !app_assoc. split; [done|].
    exists (q :: packed). split; [done|].
    apply Forall2_cons. split; [by exists state|done].
Qed.






(** ** First-order hold *)

Lemma strictly_increasing_adjacent ts k (a b : float) :
  PiecewisePolynomial.strictly_increasing ts = true →
  ts !! k = Some a → ts !! S k = Some b → (a <? b)%float = true.
Proof.
  revert k. induction ts as [|t0 ts IH]; intros k Hinc Ha Hb; [done|].
  destruct ts as [|t1 ts]; [done|].
  cbn [PiecewisePolynomial.strictly_increasing] in Hinc.
  apply andb_true_iff in Hinc as [Hlt Hinc].
  destruct k as [|k].
  - cbn in Ha, Hb. by simplify_eq.
  - by apply (IH k).
Qed.

(** The evaluator always works in a segment between two adjacent knots: no
    later than the first segment whose end is after [x]. *)
Lemma segment_adjacent (knots : list (float * VectorXd)) x :
  2 ≤ length knots →
  ∃ k k0 k1,
    knots !! k = Some k0 ∧ knots !! S k = Some k1
    ∧ PiecewisePolynomial.segment knots x = Some (k0, k1)
    ∧ (k = 0 ∨ (x <? k0.1)%float = false)
    ∧ ((x <? k1.1)%float = true ∨ S (S k) = length knots).
Proof.
  induction knots as [|k0 knots IH]; intros Hlen; [cbn in Hlen; lia|].
  destruct knots as [|k1 more]; [cbn in Hlen; lia|].
  cbn [PiecewisePolynomial.segment].
  destruct more as [|k2 more].
  - exists 0, k0, k1. split_and!; try done. by left. by right.
  - destruct (x <? k1.1)%float eqn:Hlt.
    + exists 0, k0, k1. split_and!; try done. by left. by left.
    + destruct IH as (k & ka & kb & Ha & Hb & Hseg & Hfrom & Hto);
        [cbn; lia|].
      exists (S k), ka, kb. split_and!; try done.
      * right. destruct Hfrom as [->|Hfrom]; [|done].
        cbn in Ha. by simplify_eq.
      * destruct Hto as [Hto|Hto]; [by left|right]. cbn in Hto |- *. lia.
Qed.

Lemma getPiecewisePolynomial_Ok robot_trajectory group plant pp :
  getPiecewisePolynomial robot_trajectory group plant = Ok pp →
  PiecewisePolynomial.breaks pp = breaks_of robot_trajectory
  ∧ 2 ≤ RobotTrajectory.getWayPointCount robot_trajectory
  ∧ PiecewisePolynomial.strictly_increasing (breaks_of robot_trajectory) = true
  ∧ Forall2
      (λ state q, getJointPositionVector state
                    (JointModelGroup.getName group) plant = Ok q)
      (RobotTrajectory.waypoints_ robot_trajectory)
      (PiecewisePolynomial.samples pp).
Proof.
  unfold getPiecewisePolynomial. intros Hfit.
  destruct (for_each _ _ _) as [[breaks samples]|e] eqn:Hrun; [|done].
  rewrite bind_Ok in Hfit.
  apply fit_loop in Hrun as (-> & packed & -> & Hpacked). cbn [app] in Hfit.
  fold (breaks_of robot_trajectory) in Hfit.
  unfold PiecewisePolynomial.FirstOrderHold in Hfit.
  destruct (2 <=? length (breaks_of robot_trajectory)) eqn:Hlen; [|done].
  destruct (length (breaks_of robot_trajectory) =? length packed); [|done].
  destruct (PiecewisePolynomial.strictly_increasing (breaks_of robot_trajectory));
    [|done].
  cbn in Hfit. injection Hfit as <-. cbn.
  apply Nat.leb_le in Hlen. unfold breaks_of in Hlen.
  rewrite length_fmap, length_seq in Hlen.
  split_and!; try done.
  apply Forall2_same_length_lookup. split.
  - apply Forall2_length in Hpacked. by rewrite length_seq in Hpacked.
  - intros i state q Hstate Hq.
    eapply Forall2_lookup_r in Hpacked as (i' & Hi' & state' & Hstate' & Hpack);
      [|exact Hq].
    apply lookup_seq in Hi' as [-> _]. cbn in Hstate'. by simplify_eq.
Qed.

(** C2. The two waypoints (t=0, pos=0) and (t=2, pos=2), fitted and then
    resampled every second, give exactly the waypoints (pos=0, vel=1),
    (pos=1, vel=1), (pos=2, vel=1) with the durations 0, 1 and 1. In
    general a fitted trajectory is evaluated, at any time [x], between two
    adjacent waypoints [k] and [k+1] with break times [t0 < t1] and packed
    positions [s0], [s1], where [x] is not before [t0] (unless the segment
    is the first) and before [t1] (unless it is the last): the position is
    [s0 + (x-t0)/(t1-t0) * (s1-s0)] and the derivative [(s1-s0)/(t1-t0)],
    coefficient by coefficient. *)
Theorem fit_then_resample :
  (∃ pp,
     getPiecewisePolynomial two_waypoints rail plant1 = Ok pp
     ∧ getRobotTrajectory (PiecewisePolynomial.as_trajectory pp) 1%float
         plant1 used_output
       = ({| RobotTrajectory.getRobotModel := rail_robot;
             RobotTrajectory.getGroup := rail;
             RobotTrajectory.waypoints_ :=
               [slider_moving 0 1; slider_moving 1 1; slider_moving 2 1];
             RobotTrajectory.duration_from_previous_ :=
               [0%float; 1%float; 1%float] |},
          None))
  ∧ (∀ robot_trajectory group plant pp x,
       getPiecewisePolynomial robot_trajectory group plant = Ok pp →
       ∃ k w0 w1 (s0 s1 : VectorXd),
         let t0 := RobotTrajectory.getWayPointDurationFromStart
                     robot_trajectory k in
         let t1 := RobotTrajectory.getWayPointDurationFromStart
                     robot_trajectory (S k) in
         RobotTrajectory.waypoints_ robot_trajectory !! k = Some w0
         ∧ RobotTrajectory.waypoints_ robot_trajectory !! S k = Some w1
         ∧ getJointPositionVector w0 (JointModelGroup.getName group) plant
           = Ok s0
         ∧ getJointPositionVector w1 (JointModelGroup.getName group) plant
           = Ok s1
         ∧ (t0 <? t1)%float = true
         ∧ (k = 0 ∨ (x <? t0)%float = false)
         ∧ ((x <? t1)%float = true
            ∨ S (S k) = RobotTrajectory.getWayPointCount robot_trajectory)
         ∧ PiecewisePolynomial.value pp x
           = zip_with (λ a b, a + (x - t0) / (t1 - t0) * (b - a))%float s0 s1
         ∧ PiecewisePolynomial.EvalDerivative pp x
           = zip_with (λ a b, (b - a) / (t1 - t0))%float s0 s1).
Proof.
  split.
  - exists two_second_ramp. split; vm_compute; reflexivity.
  - intros robot_trajectory group plant pp x Hfit.
    apply getPiecewisePolynomial_Ok in Hfit as (Hbreaks & Hcount & Hinc & Hsamples).
    pose proof (Forall2_length _ _ _ Hsamples) as Hlen.
    fold (RobotTrajectory.getWayPointCount robot_trajectory) in Hlen.
    assert (Hbreak : ∀ i t, breaks_of robot_trajectory !! i = Some t →
              t = RobotTrajectory.getWayPointDurationFromStart robot_trajectory i).
    { intros i t Hi. unfold breaks_of in Hi. rewrite list_lookup_fmap in Hi.
      destruct (seq _ _ !! i) as [i'|] eqn:Hseq; [|done].
      apply lookup_seq in Hseq as [-> _]. cbn in Hi. by simplify_eq. }
    destruct (segment_adjacent
                (zip (PiecewisePolynomial.breaks pp) (PiecewisePolynomial.samples pp)) x)
      as (k & [t0 s0] & [t1 s1] & Hk0 & Hk1 & Hseg & Hfrom & Hto).
    { rewrite length_zip, Hbreaks. unfold breaks_of.
      rewrite length_fmap, length_seq. lia. }
    apply lookup_zip_Some in Hk0 as [Ht0 Hs0], Hk1 as [Ht1 Hs1].
    rewrite Hbreaks in Ht0, Ht1.
    pose proof (strictly_increasing_adjacent _ _ _ _ Hinc Ht0 Ht1) as Hlt.
    apply Hbreak in Ht0 as ->. apply Hbreak in Ht1 as ->.
    destruct (Forall2_lookup_r _ _ _ _ _ Hsamples Hs0) as (w0 & Hw0 & Hpack0).
    destruct (Forall2_lookup_r _ _ _ _ _ Hsamples Hs1) as (w1 & Hw1 & Hpack1).
    exists k, w0, w1, s0, s1. cbn zeta.
    unfold PiecewisePolynomial.value, PiecewisePolynomial.EvalDerivative.
    rewrite Hseg. split_and!; try done.
    rewrite length_zip, Hbreaks in Hto. unfold breaks_of in Hto.
    rewrite length_fmap, length_seq in Hto.
    destruct Hto as [Hto|Hto]; [by left|right]. cbn in Hto. lia.
Qed.

Lemma fit_then_resample_witness :
  ∃ k w0 w1 (s0 s1 : VectorXd),
    let t0 := RobotTrajectory.getWayPointDurationFromStart two_waypoints k in
    let t1 := RobotTrajectory.getWayPointDurationFromStart two_waypoints (S k) in
    RobotTrajectory.waypoints_ two_waypoints !! k = Some w0
    ∧ RobotTrajectory.waypoints_ two_waypoints !! S k = Some w1
    ∧ getJointPositionVector w0 "rail" plant1 = Ok s0
    ∧ getJointPositionVector w1 "rail" plant1 = Ok s1
    ∧ (t0 <? t1)%float = true
    ∧ (k = 0 ∨ (0.5 <? t0)%float = false)
    ∧ ((0.5 <? t1)%float = true ∨ S (S k) = 2)
    ∧ PiecewisePolynomial.value two_second_ramp 0.5
      = zip_with (λ a b, a + (0.5 - t0) / (t1 - t0) * (b - a))%float s0 s1
    ∧ PiecewisePolynomial.EvalDerivative two_second_ramp 0.5
      = zip_with (λ a b, (b - a) / (t1 - t0))%float s0 s1.
Proof.
  apply (proj2 fit_then_resample two_waypoints rail plant1 two_second_ramp
           0.5%float).
  vm_compute. reflexivity.
Defined.

(** ** Doubles: the facts the last sample rests on *)

Section FloatFacts.
Local Open Scope Z_scope.

Lemma new_location_zero nb : new_location nb 0 = loc_Exact.
Proof. unfold new_location. by destruct (Z.even nb). Qed.

Lemma SFdiv_core_self m e :
  SFdiv_core_binary prec emax (Z.pos m) e (Z.pos m) e = (2 ^ 53, -53, loc_Exact).
Proof.
  unfold SFdiv_core_binary.
  replace (Zdigits2 (Z.pos m) + e - (Zdigits2 (Z.pos m) + e)) with 0 by lia.
  replace (e - e) with 0 by lia.
  change (IntDef.Z.min (fexp prec emax 0) 0) with (-53).
  change (0 - -53) with 53.
  change (IntDef.Z.shiftl (Z.pos m) 53) with (Z.shiftl (Z.pos m) 53).
  rewrite Z.shiftl_mul_pow2 by lia.
  change (IntDef.Z.div_eucl ?a ?b) with (Z.div_eucl a b).
  destruct (Z.div_eucl (Z.pos m * 2 ^ 53) (Z.pos m)) as [q r] eqn:Hdiv.
  assert (Hq : q = 2 ^ 53).
  { change q with (fst (q, r)). rewrite <- Hdiv.
    change (fst (Z.div_eucl ?a ?b)) with (a / b). rewrite Z.mul_comm.
    apply Z.div_mul. lia. }
  assert (Hr : r = 0).
  { change r with (snd (q, r)). rewrite <- Hdiv.
    change (snd (Z.div_eucl ?a ?b)) with (a mod b). rewrite Z.mul_comm.
    apply Z.mod_mul. lia. }
  subst q r. by rewrite new_location_zero.
Qed.

Lemma float_div_self (x : float) s m e :
  Prim2SF x = S754_finite s m e → (x / x)%float = 1%float.
Proof.
  intros Hx. apply Prim2SF_inj. rewrite div_spec, Hx.
  unfold SF64div, SFdiv. rewrite SFdiv_core_self, xorb_nilpotent.
  by vm_compute.
Qed.

(** Multiplying by one changes nothing. *)
Lemma digits2_pos_double m :
  Z.pos (digits2_pos (4503599627370496 * m)) = Z.pos (digits2_pos m) + 52.
Proof.
  change (4503599627370496 * m)%positive with
    (Pos.iter xO m 52). cbn [Pos.iter digits2_pos].
  rewrite !Pos2Z.inj_succ. lia.
Qed.

Lemma float_mul_1_l (x : float) : (1 * x)%float = x.
Proof.
  apply Prim2SF_inj. rewrite mul_spec.
  pose proof (Prim2SF_valid x) as Hvalid.
  change (Prim2SF 1) with (S754_finite false 4503599627370496 (-52)).
  destruct (Prim2SF x) as [s|s| |s m e]; try reflexivity.
  unfold SF64mul, SFmul. cbn [xorb].
  cbn [valid_binary] in Hvalid. unfold bounded, canonical_mantissa in Hvalid.
  apply andb_true_iff in Hvalid as [Hcanon Hbound].
  apply Z.eqb_eq in Hcanon. apply Z.leb_le in Hbound.
  unfold binary_round_aux, shr_fexp.
  change IntDef.Z.add with Z.add in *. change IntDef.Z.sub with Z.sub in *.
  cbn [Zdigits2]. rewrite digits2_pos_double.
  replace (Z.pos (digits2_pos m) + 52 + (-52 + e)) with (Z.pos (digits2_pos m) + e) by lia.
  rewrite Hcanon.
  replace (e - (-52 + e)) with 52 by lia.
  cbn [shr shr_record_of_loc].
  change (4503599627370496 * m)%positive with (Pos.iter xO m 52).
  cbn [Pos.iter SpecFloat.iter_pos shr_1 orb].
  cbn [shr_m loc_of_shr_record round_nearest_even Zdigits2 shr_record_of_loc].
  change IntDef.Z.add with Z.add. change IntDef.Z.sub with Z.sub.
  replace (-52 + e + 52) with e by lia.
  rewrite Hcanon, Z.sub_diag. cbn [shr shr_m].
  apply Z.leb_le in Hbound. by rewrite Hbound.
Qed.

Lemma digits2_pos_iter p k :
  digits2_pos (Pos.iter xO p k) = (digits2_pos p + k)%positive.
Proof.
  induction k as [|k IH] using Pos.peano_ind.
  - cbn. by rewrite Pos.add_1_r.
  - rewrite Pos.iter_succ. cbn [digits2_pos]. rewrite IH. lia.
Qed.

Lemma digits2_pos_bound p :
  (2 ^ (Z.pos (digits2_pos p) - 1) <= Z.pos p < 2 ^ Z.pos (digits2_pos p))%Z.
Proof.
  induction p as [p IH|p IH|]; cbn [digits2_pos]; [..|by vm_compute].
  - rewrite Pos2Z.inj_succ. change (Z.pos p~1) with (2 * Z.pos p + 1)%Z.
    replace (Z.succ (Z.pos (digits2_pos p)) - 1) with (Z.succ (Z.pos (digits2_pos p) - 1)) by lia.
    rewrite !Z.pow_succ_r by lia.
    destruct IH as [Hlow Hhigh]. revert Hlow Hhigh.
    generalize (2 ^ (Z.pos (digits2_pos p) - 1))%Z (2 ^ Z.pos (digits2_pos p))%Z.
    intros; lia.
  - rewrite Pos2Z.inj_succ. change (Z.pos p~0) with (2 * Z.pos p)%Z.
    replace (Z.succ (Z.pos (digits2_pos p)) - 1) with (Z.succ (Z.pos (digits2_pos p) - 1)) by lia.
    rewrite !Z.pow_succ_r by lia.
    destruct IH as [Hlow Hhigh]. revert Hlow Hhigh.
    generalize (2 ^ (Z.pos (digits2_pos p) - 1))%Z (2 ^ Z.pos (digits2_pos p))%Z.
    intros; lia.
Qed.

(** A mantissa of 53 digits with an exponent in range is already rounded. *)
Lemma binary_round_aux_canonical s m e :
  Z.pos (digits2_pos m) = 53 → (-1074 <= e <= 971)%Z →
  binary_round_aux prec emax s (Z.pos m) e loc_Exact = S754_finite s m e.
Proof.
  intros Hdigits He.
  assert (Hfexp : fexp prec emax (53 + e) - e = 0).
  { unfold fexp, emin. change prec with 53. change emax with 1024. lia. }
  unfold binary_round_aux, shr_fexp. cbn [Zdigits2].
  rewrite Hdigits, Hfexp.
  cbn [shr shr_record_of_loc shr_m loc_of_shr_record round_nearest_even Zdigits2].
  rewrite Hdigits, Hfexp. cbn [shr shr_record_of_loc shr_m].
  change (emax - prec) with 971.
  destruct (Z.leb_spec e 971); [done|lia].
Qed.

Lemma binary_normalize_integer p :
  Z.pos p < 2 ^ 53 →
  ∃ m e, binary_normalize prec emax (Z.pos p) 0 false = S754_finite false m e
         ∧ valid_binary (S754_finite false m e) = true.
Proof.
  intros Hp. pose proof (digits2_pos_bound p) as [Hlow _].
  assert (Hd : (Z.pos (digits2_pos p) <= 53)%Z).
  { destruct (Z.le_gt_cases (Z.pos (digits2_pos p)) 53) as [|Hgt]; [done|].
    assert (2 ^ 53 <= 2 ^ (Z.pos (digits2_pos p) - 1))%Z
      by (apply Z.pow_le_mono_r; lia). lia. }
  assert (Hfexp : fexp prec emax (Z.pos (digits2_pos p) + 0)
                  = Z.pos (digits2_pos p) - 53).
  { unfold fexp, emin. change prec with 53. change emax with 1024. lia. }
  assert (Hvalid : ∀ m e, Z.pos (digits2_pos m) = 53 → (-1074 <= e <= 971)%Z →
            valid_binary (S754_finite false m e) = true).
  { intros m e Hm He. cbn [valid_binary]. unfold bounded, canonical_mantissa.
    rewrite Hm. apply andb_true_iff. split.
    - apply Z.eqb_eq. unfold fexp, emin. change prec with 53.
      change emax with 1024. lia.
    - apply Z.leb_le. change (emax - prec) with 971. lia. }
  cbn [binary_normalize]. unfold binary_round, shl_align. rewrite Hfexp.
  destruct (Z.pos (digits2_pos p) - 53 - 0) as [|k|k] eqn:Hshift; [|lia|].
  - assert (Hdigits : Z.pos (digits2_pos p) = 53) by lia.
    exists p, 0. rewrite binary_round_aux_canonical by (done || lia).
    split; [done|]. apply Hvalid; [done|lia].
  - assert (Hdigits : Z.pos (digits2_pos (Pos.iter xO p k)) = 53).
    { rewrite digits2_pos_iter, Pos2Z.inj_add. lia. }
    exists (Pos.iter xO p k), (Z.pos (digits2_pos p) - 53).
    rewrite binary_round_aux_canonical by (done || lia).
    split; [done|]. apply Hvalid; [done|lia].
Qed.

Lemma of_Z_finite z :
  0 < z < 2 ^ 53 →
  ∃ m e, Prim2SF (Double.of_Z z) = S754_finite false m e.
Proof.
  intros Hz. destruct z as [|p|p]; [lia| |lia].
  destruct (binary_normalize_integer p) as (m & e & Hnorm & Hvalid); [lia|].
  exists m, e. unfold Double.of_Z. rewrite Hnorm. by apply Prim2SF_SF2Prim.
Qed.

Lemma float_zero_div (x : float) m e :
  Prim2SF x = S754_finite false m e → (0 / x)%float = 0%float.
Proof.
  intros Hx. apply Prim2SF_inj. by rewrite div_spec, Hx.
Qed.

(** With at least two points, the fraction of the last sample is exactly 1
    and its time exactly the end time; the first sample has fraction 0. *)
Lemma t_scale_last n : 2 <= n < 2 ^ 32 → t_scale (n - 1) n = 1%float.
Proof.
  intros Hn. unfold t_scale. rewrite Z.mod_small by lia.
  destruct (of_Z_finite (n - 1)) as (m & e & Hfinite); [lia|].
  by apply (float_div_self _ false m e).
Qed.

Lemma sample_time_last end_time n :
  2 <= n < 2 ^ 32 → sample_time end_time (n - 1) n = end_time.
Proof.
  intros Hn. unfold sample_time. rewrite t_scale_last by done.
  change (Double.min 1 1.0) with 1%float. apply float_mul_1_l.
Qed.

Lemma sample_time_first end_time n :
  2 <= n < 2 ^ 32 → sample_time end_time 0 n = (0 * end_time)%float.
Proof.
  intros Hn. unfold sample_time, t_scale. rewrite Z.mod_small by lia.
  destruct (of_Z_finite (n - 1)) as (m & e & Hfinite); [lia|].
  change (Double.of_Z 0) with 0%float.
  by rewrite (float_zero_div _ m e Hfinite).
Qed.

End FloatFacts.

(** With at least two points the resampler's durations are the differences
    of consecutive sample times, the first sample is taken at [0 * end_time]
    and the last exactly at [end_time]. *)
Lemma resampler_sample_times drake_trajectory delta_t plant out n :
  num_pts (Trajectory.end_time drake_trajectory) delta_t = Ok n →
  (2 <= n < 2 ^ 32)%Z →
  covers drake_trajectory plant
    (JointModelGroup.getActiveJointModels (RobotTrajectory.getGroup out)) →
  ∃ out' first middle,
    getRobotTrajectory drake_trajectory delta_t plant out = (out', None)
    ∧ RobotTrajectory.duration_from_previous_ out'
      = deltas 0 (first :: middle ++ [Trajectory.end_time drake_trajectory])
    ∧ first = (0 * Trajectory.end_time drake_trajectory)%float
    ∧ S (S (length middle)) = Z.to_nat n.
Proof.
  intros Hn Hrange Hcov. unfold getRobotTrajectory. rewrite Hn.
  destruct (2 ^ 32 <=? n)%Z eqn:Hwrap; [apply Z.leb_le in Hwrap; lia|].
  destruct (sample_loop_spec drake_trajectory plant _ n Hcov
              (Z.of_nat <$> seq 0 (Z.to_nat n))
              (RobotTrajectory.clear out) 0%float)
    as (out' & Hrun & _ & _ & _ & Hdur).
  cbn [RobotTrajectory.clear RobotTrajectory.duration_from_previous_ app] in Hdur.
  destruct (Z.to_nat n) as [|[|k]] eqn:Hk; [lia|lia|].
  exists out', (sample_time (Trajectory.end_time drake_trajectory) 0 n),
    ((λ i, sample_time (Trajectory.end_time drake_trajectory) i n)
       <$> (Z.of_nat <$> seq 1 k)).
  split_and!.
  - exact Hrun.
  - rewrite Hdur. f_equal.
    replace (S (S k)) with (S k + 1) by lia.
    rewrite seq_app, !fmap_app. cbn [seq fmap list_fmap app]. do 2 f_equal.
    replace (Z.of_nat (0 + S k)) with (n - 1)%Z by lia.
    by rewrite sample_time_last.
  - by apply sample_time_first.
  - by rewrite !length_fmap, length_seq.
Qed.

(** ** One sample point *)

(** C7. The source divides by [num_pts - 1] without a guard. A trajectory
    that ends at time 0, sampled every second, has [num_pts = 1]: the
    sample fraction of its only sample is 0/0, a NaN, where the claim has
    0, and the sample time is NaN, where the claim has [0 * end_time = 0].
    The same happens for a positive [end_time] so small that
    [end_time / delta_t] rounds to 0. *)
Theorem sample_fraction_unguarded :
  PiecewisePolynomial.FirstOrderHold [(-1)%float; 0%float]
    [[3%float]; [3%float]] = Ok ending_at_zero
  ∧ PiecewisePolynomial.end_time ending_at_zero = 0%float
  ∧ num_pts 0 1 = Ok 1%Z
  ∧ t_scale 0 1 = nan
  ∧ sample_time 0 0 1 = nan
  ∧ t_scale 0 1 ≠ 0%float
  ∧ sample_time 0 0 1 ≠ (Double.min 0 1.0 * 0)%float
  ∧ num_pts 0x1p-1074 4 = Ok 1%Z
  ∧ sample_time 0x1p-1074 0 1 = nan.
Proof.
  split_and!; try (vm_compute; reflexivity);
    apply float_neq; vm_compute; discriminate.
Qed.

(** C6. On the same input the resampler appends one waypoint whose
    duration is NaN: the time of the last sample, the sum of the appended
    durations, is NaN and not the [end_time], which is 0. *)
Theorem zero_duration_resample :
  Trajectory.end_time (PiecewisePolynomial.as_trajectory ending_at_zero)
  = 0%float
  ∧ getRobotTrajectory (PiecewisePolynomial.as_trajectory ending_at_zero)
      1%float plant1 used_output
    = (RobotTrajectory.addSuffixWayPoint empty_output (slider_moving nan 0) nan,
       None)
  ∧ RobotTrajectory.getWayPointDurationFromStart
      (getRobotTrajectory (PiecewisePolynomial.as_trajectory ending_at_zero)
         1%float plant1 used_output).1 0
    = nan
  ∧ nan ≠ 0%float
  ∧ RobotTrajectory.duration_from_previous_
      (getRobotTrajectory (PiecewisePolynomial.as_trajectory shortest)
         4%float plant1 used_output).1
    = [nan].
Proof.
  split_and!; try (vm_compute; reflexivity).
  apply float_neq; vm_compute; discriminate.
Qed.

(** ** replaceSTLWithOBJ *)

Lemma starts_with_app pat s :
  StdString.starts_with pat s = true → s = pat ++ drop (length pat) s.
Proof.
  revert s. induction pat as [|a pat IH]; intros s Hs; [done|].
  destruct s as [|c s]; [done|]. cbn in Hs.
  apply andb_true_iff in Hs as [Hc Hs]. apply Ascii.eqb_eq in Hc as ->.
  cbn. f_equal. by apply IH.
Qed.

Lemma starts_with_length pat s :
  StdString.starts_with pat s = true → length pat ≤ length s.
Proof.
  intros Hs. rewrite (starts_with_app pat s Hs), length_app. lia.
Qed.

Lemma existsb_starts_with_length pats s :
  four_long pats →
  existsb (λ pat, StdString.starts_with pat s) pats = true → 4 ≤ length s.
Proof.
  intros Hfour Hex. apply existsb_exists in Hex as (pat & Hin & Hpat).
  unfold four_long in Hfour. rewrite Forall_forall in Hfour.
  apply list_elem_of_In, Hfour in Hin. apply starts_with_length in Hpat. lia.
Qed.

(** More steps than characters change nothing. *)
Lemma substitute_fuel pats n :
  four_long pats →
  ∀ m s, length s ≤ n → length s ≤ m →
    substitute pats n s = substitute pats m s.
Proof.
  intros Hfour. induction n as [|n IH]; intros m s Hn Hm.
  - destruct s; [|cbn in Hn; lia]. destruct m; [done|]. cbn [substitute].
    destruct (existsb _ pats) eqn:Hex; [|done].
    apply existsb_starts_with_length in Hex; [cbn in Hex; lia|done].
  - destruct m as [|m].
    + destruct s; [|cbn in Hm; lia]. cbn [substitute].
      destruct (existsb _ pats) eqn:Hex; [|done].
      apply existsb_starts_with_length in Hex; [cbn in Hex; lia|done].
    + cbn [substitute]. destruct (existsb _ pats) eqn:Hex.
      * apply existsb_starts_with_length in Hex; [|done]. f_equal.
        apply IH; rewrite length_drop; lia.
      * destruct s as [|c s]; [done|]. f_equal. cbn in Hn, Hm. apply IH; lia.
Qed.

Lemma substitute_pass pats n s :
  four_long pats → length s ≤ n → substitute pats n s = pass pats s.
Proof. intros Hfour Hn. by apply substitute_fuel. Qed.

Lemma pass_nil pats : pass pats [] = [].
Proof. done. Qed.

Lemma pass_match pats s :
  four_long pats →
  existsb (λ pat, StdString.starts_with pat s) pats = true →
  pass pats s = replacement ++ pass pats (drop 4 s).
Proof.
  intros Hfour Hex. pose proof (existsb_starts_with_length _ _ Hfour Hex) as Hlen.
  unfold pass. destruct s as [|c s]; [cbn in Hlen; lia|].
  cbn [length substitute]. rewrite Hex. f_equal.
  apply substitute_fuel; [done|..]; rewrite ?length_drop; cbn; lia.
Qed.

Lemma pass_copy pats c s :
  existsb (λ pat, StdString.starts_with pat (c :: s)) pats = false →
  pass pats (c :: s) = c :: pass pats s.
Proof. intros Hex. unfold pass. cbn [length substitute]. by rewrite Hex. Qed.

Lemma pass_length pats s :
  four_long pats → length (pass pats s) = length s.
Proof.
  intros Hfour. remember (length s) as n eqn:Hn.
  revert s Hn. induction (lt_wf n) as [n _ IH]; intros s ->.
  destruct s as [|c s]; [done|].
  destruct (existsb (λ pat, StdString.starts_with pat (c :: s)) pats) eqn:Hex.
  - pose proof (existsb_starts_with_length _ _ Hfour Hex) as Hlen.
    rewrite pass_match, length_app by done.
    rewrite (IH (length (drop 4 (c :: s)))); [|rewrite length_drop; lia|done].
    rewrite length_drop. cbn in *. lia.
  - rewrite pass_copy by done. cbn. f_equal. by apply (IH (length s)); [cbn; lia|].
Qed.

(** [find] from a position behind a prefix is [find] in the rest. *)
Lemma find_skip pat done todo :
  StdString.find (done ++ todo) pat (length done)
  = (λ p, length done + p) <$> StdString.find todo pat 0.
Proof.
  induction done as [|c done IH].
  - cbn [app length]. by destruct (StdString.find todo pat 0).
  - cbn [app length StdString.find]. rewrite IH.
    by destruct (StdString.find todo pat 0).
Qed.

(** What one pass does, seen from the first occurrence [find] reports. *)
Lemma pass_find pat s :
  length pat = 4 →
  match StdString.find s pat 0 with
  | None => pass [pat] s = s
  | Some p =>
      p + 4 ≤ length s
      ∧ pass [pat] s = take p s ++ replacement ++ pass [pat] (drop (p + 4) s)
  end.
Proof.
  intros Hpat.
  assert (Hfour : four_long [pat]) by (by apply Forall_singleton).
  induction s as [|c s IH].
  - cbn. destruct pat; [done|]. done.
  - cbn [StdString.find].
    destruct (StdString.starts_with pat (c :: s)) eqn:Hhead.
    + split; [apply starts_with_length in Hhead; lia|].
      rewrite pass_match; [done|done|]. cbn. by rewrite Hhead.
    + rewrite pass_copy by (cbn; by rewrite Hhead).
      destruct (StdString.find s pat 0) as [p|]; cbn.
      * destruct IH as [Hlen ->]. split; [lia|done].
      * by rewrite IH.
Qed.

(** The source's loop, started behind what it has already rewritten, ends
    and computes one pass over the rest. *)
Lemma replace_loop_pass pat fuel :
  length pat = 4 →
  ∀ done todo,
    length todo < fuel →
    replace_loop fuel pat replacement (done ++ todo) (length done)
    = Some (done ++ pass [pat] todo).
Proof.
  intros Hpat. induction fuel as [|fuel IH]; intros done todo Hfuel; [lia|].
  cbn [replace_loop]. rewrite find_skip.
  pose proof (pass_find pat todo Hpat) as Hpass.
  destruct (StdString.find todo pat 0) as [p|]; cbn [fmap option_fmap option_map].
  - destruct Hpass as [Hlen ->].
    assert (Hsplit :
      StdString.replace (done ++ todo) (length done + p) (length pat) replacement
      = (done ++ take p todo ++ replacement) ++ drop (p + 4) todo).
    { unfold StdString.replace. rewrite Hpat.
      rewrite take_app_add, <- Nat.add_assoc, drop_app_add.
      by rewrite <- !app_assoc. }
    assert (Hpos : length done + p + length replacement
                   = length (done ++ take p todo ++ replacement)).
    { rewrite !length_app, length_take. cbn. lia. }
    rewrite Hpos, Hsplit. rewrite IH by (rewrite length_drop; lia).
    by rewrite <- !app_assoc.
  - by rewrite Hpass.
Qed.

Lemma four_long_stl : four_long stl_patterns.
Proof. by repeat apply Forall_cons_2; [..|apply Forall_nil_2]. Qed.

Lemma four_long_lower : four_long [lower_case_stl].
Proof. by apply Forall_singleton. Qed.

Lemma four_long_upper : four_long [upper_case_stl].
Proof. by apply Forall_singleton. Qed.

(** A character of the output other than the dot was copied. *)
Lemma pass_cons_inv pats s x out :
  four_long pats →
  pass pats s = x :: out → x ≠ "."%char →
  ∃ s', s = x :: s' ∧ out = pass pats s'.
Proof.
  intros Hfour Hpass Hx. destruct s as [|c s]; [done|].
  destruct (existsb (λ pat, StdString.starts_with pat (c :: s)) pats) eqn:Hex.
  - rewrite pass_match in Hpass by done. cbn in Hpass. by simplify_eq.
  - rewrite pass_copy in Hpass by done. simplify_eq. by eexists.
Qed.

Lemma stl_patterns_cases q :
  q ∈ stl_patterns → q = lower_case_stl ∨ q = upper_case_stl.
Proof.
  unfold stl_patterns. rewrite !elem_of_cons.
  intros [->|[->|Hq]]; [by left|by right|by apply elem_of_nil in Hq].
Qed.

(** A pattern at the front of a pass's output was at the front of its
    input: a pass writes no pattern. *)
Lemma pass_head q pats s :
  q ∈ stl_patterns → four_long pats →
  StdString.starts_with q (pass pats s) = true →
  StdString.starts_with q s = true.
Proof.
  intros Hq Hfour Hhead. apply starts_with_app in Hhead.
  apply stl_patterns_cases in Hq.
  destruct s as [|c s]; [by destruct Hq as [->| ->]|].
  destruct (existsb (λ pat, StdString.starts_with pat (c :: s)) pats) eqn:Hex.
  - rewrite pass_match in Hhead by done.
    destruct Hq as [->| ->]; cbn in Hhead; by simplify_eq.
  - rewrite pass_copy in Hhead by done.
    destruct Hq as [->| ->]; cbn in Hhead; simplify_eq;
      match goal with H : pass pats s = _ |- _ =>
        apply pass_cons_inv in H as (s1 & -> & H); [|done|done];
        symmetry in H;
        apply pass_cons_inv in H as (s2 & -> & H); [|done|done];
        symmetry in H;
        apply pass_cons_inv in H as (s3 & -> & H); [|done|done]
      end; reflexivity.
Qed.

Lemma existsb_stl s :
  existsb (λ pat, StdString.starts_with pat s) stl_patterns
  = StdString.starts_with lower_case_stl s
    || StdString.starts_with upper_case_stl s.
Proof. cbn. by rewrite orb_false_r. Qed.

(** The output of the pass over both patterns contains neither. *)
Lemma pass_no_occurrence q s :
  q ∈ stl_patterns →
  ∀ p, StdString.starts_with q (drop p (pass stl_patterns s)) = false.
Proof.
  intros Hq. remember (length s) as n eqn:Hn.
  revert s Hn. induction (lt_wf n) as [n _ IH]; intros s -> p.
  destruct s as [|c s].
  { rewrite pass_nil, drop_nil.
    by destruct (stl_patterns_cases q Hq) as [->| ->]. }
  destruct (existsb (λ pat, StdString.starts_with pat (c :: s)) stl_patterns)
    eqn:Hex.
  - pose proof (existsb_starts_with_length _ _ four_long_stl Hex) as Hlen.
    rewrite pass_match by (done || apply four_long_stl).
    destruct p as [|[|[|[|p]]]].
    1-4: by destruct (stl_patterns_cases q Hq) as [->| ->].
    change (drop (S (S (S (S p)))) (replacement ++ ?x)) with (drop p x).
    apply (IH (length (drop 4 (c :: s)))); [|done].
    rewrite length_drop. cbn in *. lia.
  - rewrite pass_copy by done. destruct p as [|p].
    + rewrite drop_0, <- (pass_copy stl_patterns c s Hex).
      destruct (StdString.starts_with q (pass stl_patterns (c :: s))) eqn:Hhead;
        [|done].
      apply pass_head in Hhead; [|done|apply four_long_stl].
      rewrite existsb_stl in Hex. apply orb_false_iff in Hex as [Hl Hu].
      destruct (stl_patterns_cases q Hq) as [->| ->]; congruence.
    + cbn [drop]. apply (IH (length s)); [cbn; lia|done].
Qed.

(** A pass over a text without occurrences changes nothing. *)
Lemma pass_fixed pats s :
  (∀ p, existsb (λ pat, StdString.starts_with pat (drop p s)) pats = false) →
  pass pats s = s.
Proof.
  induction s as [|c s IH]; intros Hnone; [done|].
  rewrite pass_copy by apply (Hnone 0). f_equal.
  apply IH. intros p. apply (Hnone (S p)).
Qed.

Lemma existsb_one pat s :
  existsb (λ pat, StdString.starts_with pat s) [pat]
  = StdString.starts_with pat s.
Proof. cbn [existsb]. apply orb_false_r. Qed.

(** The second loop after the first is one pass over both patterns. *)
Lemma pass_upper_after_lower s :
  pass [upper_case_stl] (pass [lower_case_stl] s) = pass stl_patterns s.
Proof.
  remember (length s) as n eqn:Hn.
  revert s Hn. induction (lt_wf n) as [n _ IH]; intros s ->.
  destruct s as [|c s]; [done|].
  destruct (StdString.starts_with lower_case_stl (c :: s)) eqn:Hlower.
  - pose proof (starts_with_length _ _ Hlower) as Hlen.
    rewrite (pass_match [lower_case_stl])
      by (apply four_long_lower || by rewrite existsb_one).
    rewrite (pass_match stl_patterns)
      by (apply four_long_stl || by rewrite existsb_stl, Hlower).
    unfold replacement at 1. cbn [list_ascii_of_string app].
    rewrite !pass_copy by done.
    unfold replacement. cbn [list_ascii_of_string app]. do 4 f_equal.
    apply (IH (length (drop 4 (c :: s)))); [|done].
    rewrite length_drop. cbn in *. lia.
  - destruct (StdString.starts_with upper_case_stl (c :: s)) eqn:Hupper.
    + pose proof (starts_with_length _ _ Hupper) as Hlen.
      rewrite (pass_match stl_patterns)
        by (apply four_long_stl || by rewrite existsb_stl, Hlower, Hupper).
      pose proof (starts_with_app _ _ Hupper) as Hs.
      cbn [length upper_case_stl list_ascii_of_string app drop] in Hs.
      cbn [drop]. rewrite Hs.
      rewrite !pass_copy by done.
      rewrite pass_match by (apply four_long_upper || done).
      f_equal. cbn [drop].
      apply (IH (length (drop 3 s))); [|done].
      rewrite length_drop. cbn in *. lia.
    + rewrite (pass_copy [lower_case_stl]) by (by rewrite existsb_one).
      rewrite (pass_copy stl_patterns) by (by rewrite existsb_stl, Hlower, Hupper).
      rewrite pass_copy.
      * f_equal. apply (IH (length s)); [cbn; lia|done].
      * rewrite existsb_one.
        rewrite <- (pass_copy [lower_case_stl] c s) by (by rewrite existsb_one).
        destruct (StdString.starts_with upper_case_stl
                    (pass [lower_case_stl] (c :: s))) eqn:Hhead; [|done].
        apply pass_head in Hhead; [congruence| |apply four_long_lower].
        unfold stl_patterns. set_solver.
Qed.

(** Where an occurrence starts in the input, the output has ".obj". *)
Lemma pass_replaced s :
  ∀ p, existsb (λ pat, StdString.starts_with pat (drop p s)) stl_patterns
       = true →
       StdString.starts_with replacement (drop p (pass stl_patterns s)) = true.
Proof.
  remember (length s) as n eqn:Hn.
  revert s Hn. induction (lt_wf n) as [n _ IH]; intros s -> p Hocc.
  destruct s as [|c s]; [by rewrite drop_nil in Hocc|].
  destruct (existsb (λ pat, StdString.starts_with pat (c :: s)) stl_patterns)
    eqn:Hex.
  - pose proof (existsb_starts_with_length _ _ four_long_stl Hex) as Hlen.
    rewrite pass_match by (done || apply four_long_stl).
    destruct p as [|[|[|[|p]]]]; [done|..].
    1-3: rewrite existsb_stl in Hex; apply orb_true_iff in Hex as [Hex|Hex];
         apply starts_with_app in Hex; rewrite Hex in Hocc; done.
    change (drop (S (S (S (S p)))) (replacement ++ ?x)) with (drop p x).
    apply (IH (length (drop 4 (c :: s)))); [rewrite length_drop; cbn in *; lia|done|].
    by rewrite drop_drop.
  - rewrite pass_copy by done. destruct p as [|p]; [by rewrite drop_0, Hex in Hocc|].
    cbn [drop] in *. by apply (IH (length s)); [cbn; lia|..].
Qed.

(** A character that is in no occurrence is copied to its position. *)
Lemma pass_unchanged pats s :
  four_long pats →
  ∀ i, (∀ k, k ≤ 3 → k ≤ i →
          existsb (λ pat, StdString.starts_with pat (drop (i - k) s)) pats
          = false) →
       pass pats s !! i = s !! i.
Proof.
  intros Hfour. remember (length s) as n eqn:Hn.
  revert s Hn. induction (lt_wf n) as [n _ IH]; intros s -> i Hfree.
  destruct s as [|c s]; [done|].
  destruct (existsb (λ pat, StdString.starts_with pat (c :: s)) pats) eqn:Hex.
  - pose proof (existsb_starts_with_length _ _ Hfour Hex) as Hlen.
    destruct (decide (i ≤ 3)) as [Hi|Hi].
    { specialize (Hfree i Hi (le_n i)). rewrite Nat.sub_diag, drop_0 in Hfree.
      congruence. }
    rewrite pass_match by done.
    rewrite lookup_app_r by (cbn; lia). cbn [length replacement list_ascii_of_string].
    rewrite (IH (length (drop 4 (c :: s)))); [..|done|].
    + rewrite lookup_drop. f_equal. lia.
    + rewrite length_drop. cbn in *. lia.
    + intros k Hk Hki. rewrite drop_drop.
      replace (4 + (i - 4 - k)) with (i - k) by lia. apply Hfree; lia.
  - rewrite pass_copy by done. destruct i as [|i]; [done|]. cbn [lookup list_lookup].
    apply (IH (length s)); [cbn; lia|done|].
    intros k Hk Hki. specialize (Hfree k Hk). 
    replace (S i - k) with (S (i - k)) in Hfree by lia. apply Hfree. lia.
Qed.

Lemma length_list_ascii_of_string s :
  length (list_ascii_of_string s) = String.length s.
Proof. induction s as [|c s IH]; cbn; [done|by rewrite IH]. Qed.

(** The two loops of the source end within their budget of tests, and
    together they compute the pass over both patterns. *)
Lemma replaceSTLWithOBJ_pass input :
  replaceSTLWithOBJ input = Some (replace_all input).
Proof.
  assert (Hloop : ∀ pat l, length pat = 4 →
            replace_loop (S (length l)) pat replacement l 0
            = Some (pass [pat] l)).
  { intros pat l Hpat. apply (replace_loop_pass pat _ Hpat [] l). lia. }
  unfold replaceSTLWithOBJ, replace_all. cbn zeta.
  rewrite Hloop by done. cbn [mbind option_bind].
  rewrite Hloop by done. cbn [mbind option_bind].
  by rewrite pass_upper_after_lower.
Qed.

Lemma replace_all_chars input :
  list_ascii_of_string (replace_all input)
  = pass stl_patterns (list_ascii_of_string input).
Proof. unfold replace_all. apply list_ascii_of_string_of_list_ascii. Qed.

Lemma replace_all_no_occurrence input p :
  existsb
    (λ pat, StdString.starts_with pat
              (drop p (list_ascii_of_string (replace_all input))))
    stl_patterns = false.
Proof.
  rewrite replace_all_chars, existsb_stl.
  rewrite !pass_no_occurrence; [done|unfold stl_patterns; set_solver..].
Qed.

(** C10. For every input, [replaceSTLWithOBJ] returns (its loops end) the
    input with ".obj" in the place of every occurrence of ".stl" and of
    ".STL": the result is as long as the input, has ".obj" wherever one of
    the two occurs in the input, has the input's character at every position
    that is in no occurrence, and contains neither ".stl" nor ".STL". A
    mixed-case ".Stl" stays. Applying the function to its result gives the
    result again. *)
Theorem replaceSTLWithOBJ_replaces_all input :
  replaceSTLWithOBJ input = Some (replace_all input)
  ∧ String.length (replace_all input) = String.length input
  ∧ (∀ p, occurs_at ".stl" input p ∨ occurs_at ".STL" input p →
          occurs_at ".obj" (replace_all input) p)
  ∧ (∀ i, (∀ k, k ≤ 3 → k ≤ i →
             ¬ occurs_at ".stl" input (i - k)
             ∧ ¬ occurs_at ".STL" input (i - k)) →
          char_at (replace_all input) i = char_at input i)
  ∧ (∀ p, ¬ occurs_at ".stl" (replace_all input) p
          ∧ ¬ occurs_at ".STL" (replace_all input) p)
  ∧ replaceSTLWithOBJ "link.Stl" = Some "link.Stl"%string
  ∧ (replaceSTLWithOBJ input ≫= replaceSTLWithOBJ) = replaceSTLWithOBJ input.
Proof.
  split_and!.
  - apply replaceSTLWithOBJ_pass.
  - rewrite <- !length_list_ascii_of_string, replace_all_chars.
    apply pass_length, four_long_stl.
  - intros p Hocc. unfold occurs_at in *. rewrite replace_all_chars.
    apply pass_replaced. rewrite existsb_stl. apply orb_true_iff.
    destruct Hocc as [Hocc|Hocc]; [by left|by right].
  - intros i Hfree. unfold char_at. rewrite replace_all_chars.
    apply pass_unchanged; [apply four_long_stl|].
    intros k Hk Hki. destruct (Hfree k Hk Hki) as [Hlower Hupper].
    rewrite existsb_stl. unfold occurs_at in Hlower, Hupper.
    apply orb_false_iff. split; by apply not_true_is_false.
  - intros p. pose proof (replace_all_no_occurrence input p) as Hnone.
    rewrite existsb_stl in Hnone. apply orb_false_iff in Hnone as [Hl Hu].
    unfold occurs_at. fold lower_case_stl upper_case_stl.
    split; intros Hocc; congruence.
  - by vm_compute.
  - rewrite replaceSTLWithOBJ_pass. cbn [mbind option_bind].
    rewrite replaceSTLWithOBJ_pass. f_equal.
    unfold replace_all at 1. rewrite pass_fixed.
    + apply string_of_list_ascii_of_string.
    + apply replace_all_no_occurrence.
Qed.

(** * Further properties of conversions.cpp *)

(** ** When the packers return *)

Lemma set_coeff_length (v v' : VectorXd) i x :
  set_coeff v i x = Ok v' → length v' = length v ∧ i < length v.
Proof.
  unfold set_coeff. destruct (decide (i < length v)); [|done].
  intros [= <-]. by rewrite length_insert.
Qed.

(** The packers' loop gets through exactly when every joint has an ordinal
    inside the vector and a value; it keeps the vector's length. *)
Lemma pack_loop_returns plant (get : string → result float)
    (active : list JointModel.t) :
  ∀ v : VectorXd,
    (∃ v' : VectorXd,
       for_each
         (λ (acc : VectorXd) joint_model,
            let joint_name := JointModel.getName joint_model in
            joint_index ← MultibodyPlant.GetJointByName_ordinal plant joint_name;
            x ← get joint_name;
            set_coeff acc joint_index x)
         active v = Ok v')
    ↔ Forall (λ j, resolves plant (length v) j
                   ∧ ∃ x, get (JointModel.getName j) = Ok x) active.
Proof.
  induction active as [|j active IH]; intros v.
  - split; [by constructor|by eexists].
  - cbn [for_each]. cbn zeta. unfold MultibodyPlant.GetJointByName_ordinal.
    rewrite Forall_cons. unfold resolves at 1, ordinal_of.
    destruct (MultibodyPlant.joints plant !! JointModel.getName j) as [i|].
    2: { split; [by intros [? ?]|by intros [[(? & ? & ?) _] _]]. }
    rewrite bind_Ok.
    destruct (get (JointModel.getName j)) as [x|e].
    2: { split; [by intros [? ?]|by intros [[_ [? ?]] _]]. }
    rewrite bind_Ok. unfold set_coeff.
    destruct (decide (i < length v)) as [Hi|Hi].
    + rewrite bind_Ok, IH, length_insert. split.
      * intros Hrest. split; [|done]. split; [by exists i|by exists x].
      * by intros [_ Hrest].
    + split; [by intros [? ?]|].
      intros [[(i' & Hi' & Hlt) _] _]. by simplify_eq.
Qed.

Lemma pack_loop_length plant (get : string → result float)
    (active : list JointModel.t) :
  ∀ v v' : VectorXd,
    for_each
      (λ (acc : VectorXd) joint_model,
         let joint_name := JointModel.getName joint_model in
         joint_index ← MultibodyPlant.GetJointByName_ordinal plant joint_name;
         x ← get joint_name;
         set_coeff acc joint_index x)
      active v = Ok v' →
    length v' = length v.
Proof.
  induction active as [|j active IH]; intros v v' Hrun.
  - by injection Hrun as <-.
  - cbn [for_each] in Hrun. cbn zeta in Hrun.
    destruct (MultibodyPlant.GetJointByName_ordinal plant _) as [i|]; [|done].
    rewrite bind_Ok in Hrun.
    destruct (get _) as [x|]; [|done]. rewrite bind_Ok in Hrun.
    destruct (set_coeff v i x) as [v1|] eqn:Hset; [|done].
    rewrite bind_Ok in Hrun. apply IH in Hrun as ->.
    by apply set_coeff_length in Hset as [-> _].
Qed.

(** X1. [getJointPositionVector] returns a vector exactly when the state's
    robot model has the group, the group has no more active joints than the
    plant has positions, and every active joint has an ordinal below that
    number and a position in the state; the vector then has one coefficient
    per plant position. The same holds for [getJointVelocityVector] with
    velocities. Nothing is required of ordinals being distinct. *)
Theorem packers_return_iff s group_name plant :
  ((∃ q : VectorXd, getJointPositionVector s group_name plant = Ok q)
   ↔ ∃ g, RobotModel.groups (RobotState.getRobotModel s) !! group_name
          = Some g
          ∧ length (JointModelGroup.getActiveJointModels g)
            ≤ MultibodyPlant.num_positions plant
          ∧ Forall
              (λ j, resolves plant (MultibodyPlant.num_positions plant) j
                    ∧ is_Some (RobotState.position s !! JointModel.getName j))
              (JointModelGroup.getActiveJointModels g))
  ∧ ((∃ v : VectorXd, getJointVelocityVector s group_name plant = Ok v)
     ↔ ∃ g, RobotModel.groups (RobotState.getRobotModel s) !! group_name
            = Some g
            ∧ length (JointModelGroup.getActiveJointModels g)
              ≤ MultibodyPlant.num_velocities plant
            ∧ Forall
                (λ j, resolves plant (MultibodyPlant.num_velocities plant) j
                      ∧ is_Some (RobotState.velocity s !! JointModel.getName j))
                (JointModelGroup.getActiveJointModels g))
  ∧ (∀ q : VectorXd, getJointPositionVector s group_name plant = Ok q →
       length q = MultibodyPlant.num_positions plant)
  ∧ (∀ v : VectorXd, getJointVelocityVector s group_name plant = Ok v →
       length v = MultibodyPlant.num_velocities plant).
Proof.
  assert (Hpos : ∀ name, (∃ x, RobotState.getVariablePosition s name = Ok x)
                         ↔ is_Some (RobotState.position s !! name)).
  { intros name. unfold RobotState.getVariablePosition.
    destruct (RobotState.position s !! name) as [x|].
    - split; [by eexists|by exists x].
    - split; [by intros [? ?]|by intros [? ?]]. }
  assert (Hvel : ∀ name, (∃ x, RobotState.getVariableVelocity s name = Ok x)
                         ↔ is_Some (RobotState.velocity s !! name)).
  { intros name. unfold RobotState.getVariableVelocity.
    destruct (RobotState.velocity s !! name) as [x|].
    - split; [by eexists|by exists x].
    - split; [by intros [? ?]|by intros [? ?]]. }
  unfold getJointPositionVector, getJointVelocityVector,
    RobotModel.getJointModelGroup.
  destruct (RobotModel.groups (RobotState.getRobotModel s) !! group_name)
    as [g|].
  2: { rewrite !bind_Fail.
       split; [|split; [|split]]; try done;
         (split; [by intros [? ?]|by intros (? & ? & _)]). }
  rewrite !bind_Ok. cbn zeta. unfold assert.
  split; [|split; [|split]].
  - destruct (Nat.leb_spec (length (JointModelGroup.getActiveJointModels g))
                (MultibodyPlant.num_positions plant)) as [Hle|Hgt].
    + rewrite bind_Ok, pack_loop_returns. unfold Zero.
      rewrite length_replicate. split.
      * intros Hall. exists g. split_and!; [done|done|].
        eapply Forall_impl; [exact Hall|]. intros j [Hj Hx]. by rewrite <- Hpos.
      * intros (g' & [= <-] & _ & Hall).
        eapply Forall_impl; [exact Hall|]. intros j [Hj Hx]. by rewrite Hpos.
    + split; [by intros [? ?]|]. intros (g' & [= <-] & Hle & _). lia.
  - destruct (Nat.leb_spec (length (JointModelGroup.getActiveJointModels g))
                (MultibodyPlant.num_velocities plant)) as [Hle|Hgt].
    + rewrite bind_Ok, pack_loop_returns. unfold Zero.
      rewrite length_replicate. split.
      * intros Hall. exists g. split_and!; [done|done|].
        eapply Forall_impl; [exact Hall|]. intros j [Hj Hx]. by rewrite <- Hvel.
      * intros (g' & [= <-] & _ & Hall).
        eapply Forall_impl; [exact Hall|]. intros j [Hj Hx]. by rewrite Hvel.
    + split; [by intros [? ?]|]. intros (g' & [= <-] & Hle & _). lia.
  - intros q Hrun.
    destruct (length _ <=? MultibodyPlant.num_positions plant); [|done].
    rewrite bind_Ok in Hrun. apply pack_loop_length in Hrun as ->.
    unfold Zero. apply length_replicate.
  - intros v Hrun.
    destruct (length _ <=? MultibodyPlant.num_velocities plant); [|done].
    rewrite bind_Ok in Hrun. apply pack_loop_length in Hrun as ->.
    unfold Zero. apply length_replicate.
Qed.

Lemma consistent_Permutation active active' plant capacity :
  active ≡ₚ active' →
  consistent active plant capacity → consistent active' plant capacity.
Proof.
  intros Hperm (Hlen & Hall & Hnd). split_and!.
  - by rewrite <- Hperm.
  - by rewrite <- Hperm.
  - by rewrite <- Hperm.
Qed.

(** X2. With distinct ordinals the order in which a group lists its active
    joints does not matter to the packers: two states with the same
    positions and velocities, whose groups list the same joints in another
    order, are packed to the same two vectors. *)
Theorem packers_order_independent s s' group_name group_name' plant g g' :
  RobotModel.groups (RobotState.getRobotModel s) !! group_name = Some g →
  RobotModel.groups (RobotState.getRobotModel s') !! group_name' = Some g' →
  JointModelGroup.getActiveJointModels g
    ≡ₚ JointModelGroup.getActiveJointModels g' →
  RobotState.position s = RobotState.position s' →
  RobotState.velocity s = RobotState.velocity s' →
  consistent (JointModelGroup.getActiveJointModels g) plant
    (MultibodyPlant.num_positions plant) →
  consistent (JointModelGroup.getActiveJointModels g) plant
    (MultibodyPlant.num_velocities plant) →
  has_joints s (JointModelGroup.getActiveJointModels g) →
  getJointPositionVector s group_name plant
  = getJointPositionVector s' group_name' plant
  ∧ getJointVelocityVector s group_name plant
    = getJointVelocityVector s' group_name' plant.
Proof.
  intros Hg Hg' Hperm Hposition Hvelocity Hq Hv Hhas.
  assert (Hhas' : has_joints s' (JointModelGroup.getActiveJointModels g')).
  { unfold has_joints in *. rewrite <- Hperm, <- Hposition, <- Hvelocity. done. }
  pose proof (consistent_Permutation _ _ _ _ Hperm Hq) as Hq'.
  pose proof (consistent_Permutation _ _ _ _ Hperm Hv) as Hv'.
  destruct (getJointPositionVector_spec s group_name plant g Hg Hq Hhas)
    as (q & -> & Hlen_q & Hmapped_q & Hzero_q).
  destruct (getJointPositionVector_spec s' group_name' plant g' Hg' Hq' Hhas')
    as (q' & -> & Hlen_q' & Hmapped_q' & Hzero_q').
  destruct (getJointVelocityVector_spec s group_name plant g Hg Hv Hhas)
    as (v & -> & Hlen_v & Hmapped_v & Hzero_v).
  destruct (getJointVelocityVector_spec s' group_name' plant g' Hg' Hv' Hhas')
    as (v' & -> & Hlen_v' & Hmapped_v' & Hzero_v').
  assert (Hun : ∀ i, unmapped (JointModelGroup.getActiveJointModels g) plant i
                     → unmapped (JointModelGroup.getActiveJointModels g') plant i).
  { intros i. unfold unmapped. by rewrite Hperm. }
  split; f_equal; apply list_eq; intros i.
  - destruct (decide (i < MultibodyPlant.num_positions plant)) as [Hi|Hi].
    + destruct (decide (Some i ∈ ordinal_of plant
                          <$> JointModelGroup.getActiveJointModels g))
        as [Hin|Hout].
      * apply list_elem_of_fmap in Hin as (j & Hj & Hin).
        rewrite (Hmapped_q j i), (Hmapped_q' j i), Hposition; try done.
        by rewrite <- Hperm.
      * rewrite Hzero_q, Hzero_q'; auto.
    + rewrite !lookup_ge_None_2; [done|lia|lia].
  - destruct (decide (i < MultibodyPlant.num_velocities plant)) as [Hi|Hi].
    + destruct (decide (Some i ∈ ordinal_of plant
                          <$> JointModelGroup.getActiveJointModels g))
        as [Hin|Hout].
      * apply list_elem_of_fmap in Hin as (j & Hj & Hin).
        rewrite (Hmapped_v j i), (Hmapped_v' j i), Hvelocity; try done.
        by rewrite <- Hperm.
      * rewrite Hzero_v, Hzero_v'; auto.
    + rewrite !lookup_ge_None_2; [done|lia|lia].
Qed.

Lemma packers_order_independent_witness :
  getJointPositionVector pose "arm" plant3
  = getJointPositionVector pose_reversed "arm" plant3
  ∧ getJointVelocityVector pose "arm" plant3
    = getJointVelocityVector pose_reversed "arm" plant3.
Proof.
  apply (packers_order_independent pose pose_reversed "arm" "arm" plant3
           arm arm_reversed).
  - reflexivity.
  - reflexivity.
  - apply perm_swap.
  - reflexivity.
  - reflexivity.
  - apply consistentb_spec. vm_compute. reflexivity.
  - apply consistentb_spec. vm_compute. reflexivity.
  - exact has_joints_pose.
Defined.

(** ** The unpacking loop *)

(** X3. The inner loop of [getRobotTrajectory] gets through exactly when
    every joint has an ordinal inside both vectors. It then leaves the
    state's robot model and every variable that is no joint of the list as
    they were, and gives every joint the two coefficients at its ordinal. *)
Theorem unpack_waypoint_returns_iff active plant (pos_val vel_val : VectorXd) w :
  ((∃ w', unpack_waypoint active plant pos_val vel_val w = Ok w')
   ↔ Forall (λ j, resolves plant (length pos_val) j
                  ∧ resolves plant (length vel_val) j) active)
  ∧ (∀ w', unpack_waypoint active plant pos_val vel_val w = Ok w' →
       RobotState.getRobotModel w' = RobotState.getRobotModel w
       ∧ (∀ j i, j ∈ active → ordinal_of plant j = Some i →
            RobotState.position w' !! JointModel.getName j = pos_val !! i
            ∧ RobotState.velocity w' !! JointModel.getName j = vel_val !! i)
       ∧ (∀ name, name ∉ JointModel.getName <$> active →
            RobotState.position w' !! name = RobotState.position w !! name
            ∧ RobotState.velocity w' !! name = RobotState.velocity w !! name)).
Proof.
  assert (Hiff : ∀ w,
    (∃ w', unpack_waypoint active plant pos_val vel_val w = Ok w')
    ↔ Forall (λ j, resolves plant (length pos_val) j
                   ∧ resolves plant (length vel_val) j) active).
  { clear w. unfold unpack_waypoint.
    induction active as [|j active IH]; intros w.
    - split; [by constructor|by eexists].
    - cbn [for_each]. cbn zeta. unfold MultibodyPlant.GetJointByName_ordinal.
      rewrite Forall_cons. unfold resolves at 1 2, ordinal_of.
      destruct (MultibodyPlant.joints plant !! JointModel.getName j) as [i|].
      2: { split; [by intros [? ?]|by intros [[(? & ? & ?) _] _]]. }
      rewrite bind_Ok. unfold coeff.
      destruct (pos_val !! i) as [p|] eqn:Hp.
      2: { split; [by intros [? ?]|]. intros [[(i' & Hi' & Hlt) _] _].
           simplify_eq. apply lookup_ge_None in Hp. lia. }
      rewrite !bind_Ok.
      destruct (vel_val !! i) as [v|] eqn:Hv.
      2: { split; [by intros [? ?]|]. intros [[_ (i' & Hi' & Hlt)] _].
           simplify_eq. apply lookup_ge_None in Hv. lia. }
      rewrite !bind_Ok, IH.
      apply lookup_lt_Some in Hp, Hv. split.
      + intros Hrest. split; [|done]. split; by exists i.
      + by intros [_ Hrest]. }
  split; [apply Hiff|].
  intros w' Hrun.
  destruct (unpack_waypoint_spec plant pos_val vel_val active) with (w := w)
    as (w'' & Hrun' & Hspec).
  - assert (Hall : Forall (λ j, resolves plant (length pos_val) j
                               ∧ resolves plant (length vel_val) j) active)
      by (apply (proj1 (Hiff w)); by exists w').
    rewrite Forall_forall in Hall. intros j Hj.
    destruct (Hall j Hj) as [(i & Hi & Hp) (i' & Hi' & Hv)].
    exists i. rewrite Hi in Hi'. by simplify_eq.
  - rewrite Hrun in Hrun'. by simplify_eq.
Qed.

(** ** The bound extractors *)

(** The first loop of an extractor leaves nothing of what the two vectors
    held: all coefficients are the two defaults. *)
Lemma default_fill (lowest highest : float) capacity (lower0 upper0 : VectorXd) :
  for_each
    (λ '(lower, upper) i,
       lower' ← set_coeff lower i lowest;
       upper' ← set_coeff upper i highest;
       Ok (lower', upper'))
    (seq 0 capacity) (resize capacity lower0, resize capacity upper0)
  = Ok (replicate capacity lowest, replicate capacity highest).
Proof.
  destruct (default_loop lowest highest capacity 0
              (resize capacity lower0) (resize capacity upper0))
    as (lower & upper & -> & Hlen_l & Hlen_u & Hdefault & _).
  { rewrite resize_length. lia. }
  { rewrite resize_length. lia. }
  rewrite resize_length in Hlen_l, Hlen_u.
  do 2 f_equal; apply list_eq; intros i.
  - destruct (decide (i < capacity)) as [Hi|Hi].
    + destruct (Hdefault i) as [-> _]; [lia|]. by rewrite lookup_replicate_2.
    + rewrite !lookup_ge_None_2; [done|rewrite length_replicate; lia|lia].
  - destruct (decide (i < capacity)) as [Hi|Hi].
    + destruct (Hdefault i) as [_ ->]; [lia|]. by rewrite lookup_replicate_2.
    + rewrite !lookup_ge_None_2; [done|rewrite length_replicate; lia|lia].
Qed.

(** X4. What the two output vectors hold when an extractor is called has no
    influence on the outcome: the result, or the failure, is the same for
    any two pairs of vectors passed in. *)
Theorem extractor_ignores_old_bounds q g plant
    (lower0 upper0 lower1 upper1 : VectorXd) :
  extractor q g plant lower0 upper0 = extractor q g plant lower1 upper1.
Proof.
  rewrite !extractor_unfold. unfold extract_bounds.
  destruct (assert _) as [[]|e]; [|done].
  by rewrite !bind_Ok, !default_fill.
Qed.

(** The second loop keeps the lengths and gets through exactly when every
    joint has a first variable and an ordinal, inside the vectors if the
    flag is set. *)
Lemma limits_loop_returns plant (bounded : VariableBounds → bool)
    (vmin vmax : VariableBounds → float) capacity
    (active : list JointModel.t) :
  ∀ lower upper : VectorXd,
    length lower = capacity → length upper = capacity →
    ((∃ r,
        for_each
          (λ '(lower, upper) joint_model,
             let joint_name := JointModel.getName joint_model in
             bounds ← match JointModel.getVariableBounds joint_model with
                      | b :: _ => Ok b
                      | [] => Fail (NoVariableBounds joint_name)
                      end;
             joint_index ← MultibodyPlant.GetJointByName_ordinal plant joint_name;
             if bounded bounds then
               lower' ← set_coeff lower joint_index (vmin bounds);
               upper' ← set_coeff upper joint_index (vmax bounds);
               Ok (lower', upper')
             else Ok (lower, upper))
          active (lower, upper) = Ok r)
     ↔ Forall (λ j, ∃ b i, head (JointModel.getVariableBounds j) = Some b
                           ∧ ordinal_of plant j = Some i
                           ∧ (bounded b = true → i < capacity)) active)
    ∧ (∀ r,
         for_each
           (λ '(lower, upper) joint_model,
              let joint_name := JointModel.getName joint_model in
              bounds ← match JointModel.getVariableBounds joint_model with
                       | b :: _ => Ok b
                       | [] => Fail (NoVariableBounds joint_name)
                       end;
              joint_index ← MultibodyPlant.GetJointByName_ordinal plant joint_name;
              if bounded bounds then
                lower' ← set_coeff lower joint_index (vmin bounds);
                upper' ← set_coeff upper joint_index (vmax bounds);
                Ok (lower', upper')
              else Ok (lower, upper))
           active (lower, upper) = Ok r →
         length r.1 = capacity ∧ length r.2 = capacity).
Proof.
  induction active as [|j active IH]; intros lower upper Hl Hu.
  - split.
    + split; [by constructor|by eexists].
    + by intros r [= <-].
  - cbn [for_each]. cbn zeta. rewrite Forall_cons.
    unfold MultibodyPlant.GetJointByName_ordinal, ordinal_of.
    destruct (JointModel.getVariableBounds j) as [|b bs].
    { split; [|done]. split; [by intros [? ?]|by intros [(? & ? & ? & _) _]]. }
    rewrite bind_Ok.
    destruct (MultibodyPlant.joints plant !! JointModel.getName j) as [i|].
    2: { split; [|done].
         split; [by intros [? ?]|by intros [(? & ? & _ & ? & _) _]]. }
    rewrite bind_Ok. destruct (bounded b) eqn:Hflag.
    + unfold set_coeff. rewrite Hl, Hu.
      destruct (decide (i < capacity)) as [Hi|Hi].
      * rewrite !bind_Ok.
        destruct (IH (<[i := vmin b]> lower) (<[i := vmax b]> upper))
          as [Hiff Hlen]; [by rewrite length_insert..|].
        split; [|done]. rewrite Hiff. split.
        -- intros Hrest. split; [|done]. exists b, i. by rewrite Hflag.
        -- by intros [_ Hrest].
      * split; [|done]. split; [by intros [? ?]|].
        intros [(b' & i' & Hb & Hi' & Hin) _]. cbn in Hb. simplify_eq.
        by specialize (Hin Hflag).
    + rewrite bind_Ok. destruct (IH lower upper Hl Hu) as [Hiff Hlen].
      split; [|done]. rewrite Hiff. split.
      * intros Hrest. split; [|done]. exists b, i. by rewrite Hflag.
      * by intros [_ Hrest].
Qed.

(** X5. An extractor returns exactly when the group has no more active
    joints than the count its assertion reads and every active joint has a
    first variable and an ordinal in the plant; the ordinal has to be inside
    the vectors only for a joint whose flag is set, so an unflagged joint
    with an ordinal beyond the capacity goes unnoticed. Whenever it
    returns, both vectors have the capacity's length. *)
Theorem extractor_returns_iff q g plant (lower0 upper0 : VectorXd) :
  ((∃ r, extractor q g plant lower0 upper0 = Ok r)
   ↔ length (JointModelGroup.getActiveJointModels g) ≤ asserted q plant
     ∧ Forall (extractable q plant) (JointModelGroup.getActiveJointModels g))
  ∧ (∀ lower upper : VectorXd,
       extractor q g plant lower0 upper0 = Ok (lower, upper) →
       length lower = capacity q plant ∧ length upper = capacity q plant).
Proof.
  rewrite extractor_unfold. unfold extract_bounds, assert.
  destruct (limits_loop_returns plant (flag q) (declared_min q) (declared_max q)
              (capacity q plant) (JointModelGroup.getActiveJointModels g)
              (replicate (capacity q plant) (default_lower q))
              (replicate (capacity q plant) (default_upper q)))
    as [Hiff Hlen]; [apply length_replicate..|].
  destruct (Nat.leb_spec (length (JointModelGroup.getActiveJointModels g))
              (asserted q plant)) as [Hle|Hgt].
  - rewrite bind_Ok, default_fill, bind_Ok. split.
    + rewrite Hiff. unfold extractable. split; [by intros ?|by intros [_ ?]].
    + intros lower upper Hrun. by apply Hlen in Hrun.
  - split; [|done]. split; [by intros [? ?]|]. intros [Hle _]. lia.
Qed.

(** ** What the resampler leaves in the output *)

(** Whatever ends the sampling loop, it has appended as many durations as
    waypoints, no more than it had indices, and all of them if it ended
    normally; every appended waypoint is the unpacking of the two vectors
    evaluated at the sample time of its index. *)
Lemma sample_loop_appends drake_trajectory plant active num_pts indices :
  ∀ out t_prev,
    let r := sample_loop drake_trajectory plant active num_pts indices
               out t_prev in
    RobotTrajectory.getRobotModel r.1 = RobotTrajectory.getRobotModel out
    ∧ RobotTrajectory.getGroup r.1 = RobotTrajectory.getGroup out
    ∧ ∃ ws ds,
        RobotTrajectory.waypoints_ r.1 = RobotTrajectory.waypoints_ out ++ ws
        ∧ RobotTrajectory.duration_from_previous_ r.1
          = RobotTrajectory.duration_from_previous_ out ++ ds
        ∧ length ws = length ds
        ∧ length ws ≤ length indices
        ∧ (r.2 = None → length ws = length indices)
        ∧ Forall2
            (λ i w,
               let t := sample_time (Trajectory.end_time drake_trajectory)
                          i num_pts in
               unpack_waypoint active plant
                 (Trajectory.value drake_trajectory t)
                 (Trajectory.EvalDerivative drake_trajectory t)
                 (RobotState.make (RobotTrajectory.getRobotModel out))
               = Ok w)
            (take (length ws) indices) ws.
Proof.
  induction indices as [|i indices IH]; intros out t_prev; cbn zeta.
  - cbn [sample_loop]. split_and!; [done..|].
    exists [], []. rewrite !app_nil_r. split_and!; done || constructor.
  - cbn [sample_loop]. cbn zeta.
    destruct (unpack_waypoint _ _ _ _ _) as [w|e] eqn:Hunpack.
    + specialize (IH (RobotTrajectory.addSuffixWayPoint out w
                        (sample_time (Trajectory.end_time drake_trajectory)
                           i num_pts - t_prev)%float)
                     (sample_time (Trajectory.end_time drake_trajectory)
                        i num_pts)).
      cbn zeta in IH.
      destruct IH as (Hmodel & Hgroup & ws & ds & Hws & Hds & Hlen & Hle & Hall & Hunpacked).
      split_and!; [by rewrite Hmodel|by rewrite Hgroup|].
      exists (w :: ws), ((sample_time (Trajectory.end_time drake_trajectory)
                            i num_pts - t_prev)%float :: ds).
      split_and!.
      * rewrite Hws. cbn. by rewrite <- app_assoc.
      * rewrite Hds. cbn. by rewrite <- app_assoc.
      * cbn. by rewrite Hlen.
      * cbn. lia.
      * intros Hnone. cbn. by rewrite Hall.
      * cbn [length take]. apply Forall2_cons. split; [exact Hunpack|].
        exact Hunpacked.
    + cbn. split_and!; [done..|]. exists [], []. rewrite !app_nil_r.
      split_and!; first [done | cbn; lia | constructor].
Qed.


(** X7. When the count is defined and below [2^32] and the trajectory's
    vectors cover the group's joints, waypoint [k] of the output carries the
    output's robot model and holds, for every active joint, the coefficient
    at the joint's ordinal of the position vector and of the derivative
    vector evaluated at the sample time of [k]; it holds no other
    variable. *)
Theorem resampler_waypoints drake_trajectory delta_t plant out n :
  let active := JointModelGroup.getActiveJointModels
                  (RobotTrajectory.getGroup out) in
  num_pts (Trajectory.end_time drake_trajectory) delta_t = Ok n →
  (n < 2 ^ 32)%Z →
  covers drake_trajectory plant active →
  ∃ out',
    getRobotTrajectory drake_trajectory delta_t plant out = (out', None)
    ∧ ∀ k, k < Z.to_nat n →
        ∃ w, RobotTrajectory.waypoints_ out' !! k = Some w
             ∧ RobotState.getRobotModel w = RobotTrajectory.getRobotModel out
             ∧ let t := sample_time (Trajectory.end_time drake_trajectory)
                          (Z.of_nat k) n in
               (∀ j i, j ∈ active → ordinal_of plant j = Some i →
                  RobotState.position w !! JointModel.getName j
                  = Trajectory.value drake_trajectory t !! i
                  ∧ RobotState.velocity w !! JointModel.getName j
                    = Trajectory.EvalDerivative drake_trajectory t !! i)
               ∧ (∀ name, name ∉ JointModel.getName <$> active →
                    RobotState.position w !! name = None
                    ∧ RobotState.velocity w !! name = None).
Proof.
  intros active Hn Hlt Hcov.
  destruct (sample_loop_spec drake_trajectory plant active n Hcov
              (Z.of_nat <$> seq 0 (Z.to_nat n))
              (RobotTrajectory.clear out) 0%float)
    as (out' & Hrun & _).
  pose proof (sample_loop_appends drake_trajectory plant active n
                (Z.of_nat <$> seq 0 (Z.to_nat n))
                (RobotTrajectory.clear out) 0%float) as Hloop.
  cbn zeta in Hloop. rewrite Hrun in Hloop.
  destruct Hloop as (_ & _ & ws & ds & Hws & _ & _ & _ & Hall & Hunpacked).
  cbn [fst snd RobotTrajectory.clear RobotTrajectory.waypoints_ app] in Hws, Hall.
  specialize (Hall eq_refl). rewrite length_fmap, length_seq in Hall.
  rewrite take_ge in Hunpacked by (rewrite length_fmap, length_seq; lia).
  exists out'. split.
  - unfold getRobotTrajectory. rewrite Hn.
    destruct (2 ^ 32 <=? n)%Z eqn:Hwrap; [apply Z.leb_le in Hwrap; lia|].
    exact Hrun.
  - intros k Hk. rewrite Hws.
    destruct (lookup_lt_is_Some_2 ws k) as [w Hw]; [lia|].
    exists w. split; [done|].
    destruct (Forall2_lookup_r _ _ _ _ _ Hunpacked Hw) as (i & Hi & Hunpack).
    rewrite list_lookup_fmap in Hi.
    destruct (seq 0 (Z.to_nat n) !! k) as [k'|] eqn:Hseq; [|done].
    apply lookup_seq in Hseq as [-> _]. cbn in Hi. injection Hi as <-.
    cbn zeta in Hunpack.
    destruct (unpack_waypoint_spec plant _ _ active
                (Hcov (sample_time (Trajectory.end_time drake_trajectory)
                         (Z.of_nat k) n))
                (RobotState.make
                   (RobotTrajectory.getRobotModel (RobotTrajectory.clear out))))
      as (w' & Hrun' & Hmodel & Hmapped & Hothers).
    rewrite Hunpack in Hrun'. injection Hrun' as <-.
    cbn zeta. split_and!.
    + by rewrite Hmodel.
    + exact Hmapped.
    + intros name Hname. destruct (Hothers name Hname) as [-> ->]. cbn.
      by rewrite !lookup_empty.
Qed.

Lemma resampler_waypoints_witness :
  ∃ out',
    getRobotTrajectory (PiecewisePolynomial.as_trajectory unit_ramp)
      three_tenths plant1 used_output = (out', None)
    ∧ ∀ k, k < 5 →
        ∃ w, RobotTrajectory.waypoints_ out' !! k = Some w
             ∧ RobotState.getRobotModel w = rail_robot
             ∧ let t := sample_time 1 (Z.of_nat k) 5 in
               (∀ j i, j ∈ [slider] → ordinal_of plant1 j = Some i →
                  RobotState.position w !! JointModel.getName j
                  = PiecewisePolynomial.value unit_ramp t !! i
                  ∧ RobotState.velocity w !! JointModel.getName j
                    = PiecewisePolynomial.EvalDerivative unit_ramp t !! i)
               ∧ (∀ name, name ∉ JointModel.getName <$> [slider] →
                    RobotState.position w !! name = None
                    ∧ RobotState.velocity w !! name = None).
Proof.
  apply (resampler_waypoints (PiecewisePolynomial.as_trajectory unit_ramp)
           three_tenths plant1 used_output 5%Z).
  - vm_compute. reflexivity.
  - vm_compute. reflexivity.
  - exact covers_unit_ramp.
Defined.

(** ** Sample times *)

(** X8. With a count of at least two points (and below [2^32]) the
    durations appended are the differences of consecutive sample times, the
    first taken from 0; the first sample time is [0 * end_time] and the last
    is exactly [end_time]. *)
Theorem resampler_reaches_end_time drake_trajectory delta_t plant out n :
  let end_time := Trajectory.end_time drake_trajectory in
  num_pts end_time delta_t = Ok n →
  (2 <= n < 2 ^ 32)%Z →
  covers drake_trajectory plant
    (JointModelGroup.getActiveJointModels (RobotTrajectory.getGroup out)) →
  ∃ out',
    getRobotTrajectory drake_trajectory delta_t plant out = (out', None)
    ∧ RobotTrajectory.duration_from_previous_ out'
      = deltas 0
          ((λ k, sample_time end_time (Z.of_nat k) n) <$> seq 0 (Z.to_nat n))
    ∧ sample_time end_time 0 n = (0 * end_time)%float
    ∧ sample_time end_time (n - 1) n = end_time.
Proof.
  intros end_time Hn Hrange Hcov. unfold getRobotTrajectory.
  fold end_time. rewrite Hn.
  destruct (2 ^ 32 <=? n)%Z eqn:Hwrap; [apply Z.leb_le in Hwrap; lia|].
  destruct (sample_loop_spec drake_trajectory plant _ n Hcov
              (Z.of_nat <$> seq 0 (Z.to_nat n))
              (RobotTrajectory.clear out) 0%float)
    as (out' & Hrun & _ & _ & _ & Hdur).
  exists out'. split_and!.
  - exact Hrun.
  - rewrite Hdur. cbn [RobotTrajectory.clear
                         RobotTrajectory.duration_from_previous_ app].
    by rewrite <- list_fmap_compose.
  - by apply sample_time_first.
  - by apply sample_time_last.
Qed.

Lemma resampler_reaches_end_time_witness :
  ∃ out',
    getRobotTrajectory (PiecewisePolynomial.as_trajectory unit_ramp)
      three_tenths plant1 used_output = (out', None)
    ∧ RobotTrajectory.duration_from_previous_ out'
      = deltas 0 ((λ k, sample_time 1 (Z.of_nat k) 5) <$> seq 0 5)
    ∧ sample_time 1 0 5 = (0 * 1)%float
    ∧ sample_time 1 (5 - 1) 5 = 1%float.
Proof.
  apply (resampler_reaches_end_time
           (PiecewisePolynomial.as_trajectory unit_ramp)
           three_tenths plant1 used_output 5%Z).
  - vm_compute. reflexivity.
  - vm_compute. split; [discriminate|reflexivity].
  - exact covers_unit_ramp.
Defined.




(** ** replaceSTLWithOBJ: fixed points and concatenation *)

(** X10. [replaceSTLWithOBJ] returns its input unchanged exactly when the
    input contains neither ".stl" nor ".STL". *)
Theorem replaceSTLWithOBJ_unchanged_iff input :
  replaceSTLWithOBJ input = Some input
  ↔ ∀ p, ¬ occurs_at ".stl" input p ∧ ¬ occurs_at ".STL" input p.
Proof.
  rewrite replaceSTLWithOBJ_pass. split.
  - intros [= Hsame] p.
    pose proof (replace_all_no_occurrence input p) as Hnone.
    rewrite Hsame, existsb_stl in Hnone.
    apply orb_false_iff in Hnone as [Hl Hu].
    unfold occurs_at. fold lower_case_stl upper_case_stl.
    split; intros Hocc; congruence.
  - intros Hnone. f_equal. unfold replace_all. rewrite pass_fixed.
    + apply string_of_list_ascii_of_string.
    + intros p. destruct (Hnone p) as [Hl Hu]. rewrite existsb_stl.
      unfold occurs_at in Hl, Hu. fold lower_case_stl upper_case_stl in Hl, Hu.
      apply orb_false_iff. split; by apply not_true_is_false.
Qed.

Lemma starts_with_app_l pat s t :
  StdString.starts_with pat s = true → StdString.starts_with pat (s ++ t) = true.
Proof.
  revert s. induction pat as [|a pat IH]; intros s Hs; [done|].
  destruct s as [|c s]; [done|]. cbn in Hs |- *.
  apply andb_true_iff in Hs as [-> Hs]. by apply IH.
Qed.

(** No occurrence begins before a dot and ends behind it: the patterns have
    their only dot in front. *)
Lemma no_occurrence_across_dot c s t :
  existsb (λ pat, StdString.starts_with pat (c :: s)) stl_patterns = false →
  existsb (λ pat, StdString.starts_with pat ((c :: s) ++ "."%char :: t))
    stl_patterns = false.
Proof.
  rewrite !existsb_stl. intros Hnone.
  apply orb_false_iff in Hnone as [Hl Hu]. apply orb_false_iff.
  destruct s as [|c1 [|c2 [|c3 s]]]; cbn in Hl, Hu |- *.
  - split; [by destruct (Ascii.eqb "." c)..].
  - split; [by destruct (Ascii.eqb "." c), (Ascii.eqb "s" c1)
           |by destruct (Ascii.eqb "." c), (Ascii.eqb "S" c1)].
  - split; [by destruct (Ascii.eqb "." c), (Ascii.eqb "s" c1), (Ascii.eqb "t" c2)
           |by destruct (Ascii.eqb "." c), (Ascii.eqb "S" c1), (Ascii.eqb "T" c2)].
  - done.
Qed.

Lemma pass_app_dot s t :
  pass stl_patterns (s ++ "."%char :: t)
  = pass stl_patterns s ++ pass stl_patterns ("."%char :: t).
Proof.
  remember (length s) as n eqn:Hn.
  revert s Hn. induction (lt_wf n) as [n _ IH]; intros s ->.
  destruct s as [|c s]; [done|].
  destruct (existsb (λ pat, StdString.starts_with pat (c :: s)) stl_patterns)
    eqn:Hex.
  - pose proof (existsb_starts_with_length _ _ four_long_stl Hex) as Hlen.
    rewrite (pass_match stl_patterns (c :: s)) by (done || apply four_long_stl).
    rewrite pass_match; [|apply four_long_stl|].
    + rewrite drop_app_le by done. rewrite <- app_assoc. f_equal.
      apply (IH (length (drop 4 (c :: s)))); [|done].
      rewrite length_drop. cbn in *. lia.
    + apply existsb_exists in Hex as (pat & Hin & Hpat).
      apply existsb_exists. exists pat. split; [done|].
      by apply starts_with_app_l.
  - rewrite (pass_copy stl_patterns c s) by done.
    rewrite <- app_comm_cons, pass_copy.
    + cbn [app]. f_equal. apply (IH (length s)); [cbn; lia|done].
    + rewrite app_comm_cons. by apply no_occurrence_across_dot.
Qed.

Lemma list_ascii_of_string_append a b :
  list_ascii_of_string (String.append a b)
  = list_ascii_of_string a ++ list_ascii_of_string b.
Proof.
  induction a as [|c a IH]; [done|].
  change (String.append (String c a) b) with (String c (String.append a b)).
  cbn [list_ascii_of_string app]. by rewrite IH.
Qed.

Lemma string_of_list_ascii_app l k :
  string_of_list_ascii (l ++ k)
  = String.append (string_of_list_ascii l) (string_of_list_ascii k).
Proof.
  induction l as [|c l IH]; [done|].
  cbn [string_of_list_ascii app]. rewrite IH.
  by change (String.append (String c ?x) ?y) with (String c (String.append x y)).
Qed.

(** X11. At a dot the function can be applied piecewise: the result for a
    text followed by a text that begins with a dot is the result for the
    first followed by the result for the second. In particular a name that
    ends in ".stl" or ".STL" gets the rest of the name, rewritten, followed
    by ".obj". *)
Theorem replaceSTLWithOBJ_at_dot a b :
  replaceSTLWithOBJ (String.append a (String "." b))
  = Some (String.append (replace_all a) (replace_all (String "." b)))
  ∧ replaceSTLWithOBJ (String.append a ".stl")
    = Some (String.append (replace_all a) ".obj")
  ∧ replaceSTLWithOBJ (String.append a ".STL")
    = Some (String.append (replace_all a) ".obj").
Proof.
  assert (Hsplit : ∀ b,
    replaceSTLWithOBJ (String.append a (String "." b))
    = Some (String.append (replace_all a) (replace_all (String "." b)))).
  { intros b'. rewrite replaceSTLWithOBJ_pass. f_equal. unfold replace_all.
    rewrite list_ascii_of_string_append. cbn [list_ascii_of_string].
    by rewrite pass_app_dot, string_of_list_ascii_app. }
  split_and!.
  - apply Hsplit.
  - apply (Hsplit "stl"%string).
  - apply (Hsplit "STL"%string).
Qed.

(** ** The fitter *)

Lemma fit_loop_packed robot_trajectory group_name plant ws (qs : list VectorXd) :
  Forall2 (λ state q, getJointPositionVector state group_name plant = Ok q)
    ws qs →
  ∀ k breaks samples,
    (∀ i w, ws !! i = Some w →
            RobotTrajectory.waypoints_ robot_trajectory !! (k + i) = Some w) →
    for_each
      (λ '(breaks, samples) i,
         state ← RobotTrajectory.getWayPoint robot_trajectory i;
         sample ← getJointPositionVector state group_name plant;
         Ok (breaks ++
               [RobotTrajectory.getWayPointDurationFromStart robot_trajectory i],
             samples ++ [sample]))
      (seq k (length ws)) (breaks, samples)
    = Ok (breaks
            ++ (RobotTrajectory.getWayPointDurationFromStart robot_trajectory
                  <$> seq k (length ws)),
          samples ++ qs).
Proof.
  induction 1 as [|w q ws qs Hq Hall IH]; intros k breaks samples Hws.
  - cbn. by rewrite !app_nil_r.
  - cbn [length seq for_each]. unfold RobotTrajectory.getWayPoint.
    rewrite <- (Nat.add_0_r k) at 1. rewrite (Hws 0 w eq_refl), bind_Ok.
    rewrite Hq, !bind_Ok, IH.
    + cbn [fmap list_fmap]. by rewrite <- !app_assoc.
    + intros i w' Hi. replace (S k + i) with (k + S i) by lia. by apply Hws.
Qed.

(** X12. The fitter returns a trajectory exactly when there are at least two
    waypoints, every waypoint can be packed, and the durations from the
    start, one per waypoint, increase strictly; the breaks of the trajectory
    are then those durations and its samples the packed waypoints, in
    order. *)
Theorem getPiecewisePolynomial_returns_iff robot_trajectory group plant pp :
  getPiecewisePolynomial robot_trajectory group plant = Ok pp
  ↔ PiecewisePolynomial.breaks pp = breaks_of robot_trajectory
    ∧ 2 ≤ RobotTrajectory.getWayPointCount robot_trajectory
    ∧ PiecewisePolynomial.strictly_increasing (breaks_of robot_trajectory)
      = true
    ∧ Forall2
        (λ state q, getJointPositionVector state
                      (JointModelGroup.getName group) plant = Ok q)
        (RobotTrajectory.waypoints_ robot_trajectory)
        (PiecewisePolynomial.samples pp).
Proof.
  split; [apply getPiecewisePolynomial_Ok|].
  intros (Hbreaks & Hcount & Hinc & Hsamples).
  unfold getPiecewisePolynomial, RobotTrajectory.getWayPointCount.
  rewrite (fit_loop_packed robot_trajectory _ plant _ _ Hsamples 0 [] [])
    by done.
  rewrite bind_Ok. cbn [app].
  fold (RobotTrajectory.getWayPointCount robot_trajectory).
  fold (breaks_of robot_trajectory).
  unfold PiecewisePolynomial.FirstOrderHold. rewrite Hinc.
  assert (Hlen : length (breaks_of robot_trajectory)
                 = RobotTrajectory.getWayPointCount robot_trajectory).
  { unfold breaks_of. by rewrite length_fmap, length_seq. }
  rewrite Hlen. apply Nat.leb_le in Hcount. rewrite Hcount.
  apply Forall2_length in Hsamples.
  fold (RobotTrajectory.getWayPointCount robot_trajectory) in Hsamples.
  rewrite Hsamples, Nat.eqb_refl. cbn. destruct pp as [b s]. cbn in *.
  by rewrite Hbreaks.
Qed.

Lemma getJointPositionVector_length s group_name plant (q : VectorXd) :
  getJointPositionVector s group_name plant = Ok q →
  length q = MultibodyPlant.num_positions plant.
Proof.
  unfold getJointPositionVector. intros Hrun.
  destruct (RobotModel.getJointModelGroup _ _) as [g|]; [|done].
  rewrite bind_Ok in Hrun. cbn zeta in Hrun.
  destruct (assert _) as [[]|]; [|done]. rewrite bind_Ok in Hrun.
  apply pack_loop_length in Hrun as ->. unfold Zero. apply length_replicate.
Qed.

(** Every vector a fitted trajectory evaluates to has one coefficient per
    plant position. *)
Lemma fitted_lengths robot_trajectory group plant pp x :
  getPiecewisePolynomial robot_trajectory group plant = Ok pp →
  length (PiecewisePolynomial.value pp x) = MultibodyPlant.num_positions plant
  ∧ length (PiecewisePolynomial.EvalDerivative pp x)
    = MultibodyPlant.num_positions plant.
Proof.
  intros Hfit.
  apply getPiecewisePolynomial_Ok in Hfit as (Hbreaks & Hcount & _ & Hsamples).
  pose proof (Forall2_length _ _ _ Hsamples) as Hlen.
  fold (RobotTrajectory.getWayPointCount robot_trajectory) in Hlen.
  destruct (segment_adjacent
              (zip (PiecewisePolynomial.breaks pp) (PiecewisePolynomial.samples pp)) x)
    as (k & [t0 s0] & [t1 s1] & Hk0 & Hk1 & Hseg & _).
  { rewrite length_zip, Hbreaks. unfold breaks_of.
    rewrite length_fmap, length_seq. lia. }
  apply lookup_zip_Some in Hk0 as [_ Hs0], Hk1 as [_ Hs1].
  destruct (Forall2_lookup_r _ _ _ _ _ Hsamples Hs0) as (w0 & _ & Hpack0).
  destruct (Forall2_lookup_r _ _ _ _ _ Hsamples Hs1) as (w1 & _ & Hpack1).
  apply getJointPositionVector_length in Hpack0, Hpack1.
  unfold PiecewisePolynomial.value, PiecewisePolynomial.EvalDerivative.
  rewrite Hseg. unfold PiecewisePolynomial.interpolate, PiecewisePolynomial.slope.
  rewrite !length_zip_with. lia.
Qed.

(** X13. A trajectory that the fitter returned can be resampled for any
    output group whose joints have ordinals below the plant's number of
    positions: no lookup fails, and when the count is defined and below
    [2^32] the output gets that many waypoints. The end time the resampler
    reads is the duration from the start of the last fitted waypoint. *)
Theorem fitted_trajectory_resamples robot_trajectory group plant pp
    delta_t out n :
  getPiecewisePolynomial robot_trajectory group plant = Ok pp →
  Forall (resolves plant (MultibodyPlant.num_positions plant))
    (JointModelGroup.getActiveJointModels (RobotTrajectory.getGroup out)) →
  num_pts (PiecewisePolynomial.end_time pp) delta_t = Ok n →
  (n < 2 ^ 32)%Z →
  PiecewisePolynomial.end_time pp
  = RobotTrajectory.getWayPointDurationFromStart robot_trajectory
      (RobotTrajectory.getWayPointCount robot_trajectory - 1)
  ∧ ∃ out',
      getRobotTrajectory (PiecewisePolynomial.as_trajectory pp) delta_t
        plant out = (out', None)
      ∧ length (RobotTrajectory.waypoints_ out') = Z.to_nat n.
Proof.
  intros Hfit Hresolves Hn Hlt. split.
  - apply getPiecewisePolynomial_Ok in Hfit as (Hbreaks & Hcount & _).
    unfold PiecewisePolynomial.end_time. rewrite Hbreaks. unfold breaks_of.
    destruct (RobotTrajectory.getWayPointCount robot_trajectory) as [|c];
      [lia|].
    replace (S c) with (c + 1) at 1 by lia.
    rewrite seq_app, fmap_app. cbn [seq fmap list_fmap].
    rewrite List.last_last. f_equal. lia.
  - assert (Hcov : covers (PiecewisePolynomial.as_trajectory pp) plant
                     (JointModelGroup.getActiveJointModels
                        (RobotTrajectory.getGroup out))).
    { intros t j Hj. rewrite Forall_forall in Hresolves.
      destruct (Hresolves j Hj) as (i & Hi & Hbound). exists i.
      destruct (fitted_lengths _ _ _ _ t Hfit) as [Hvalue Hderivative].
      cbn. rewrite Hvalue, Hderivative. done. }
    unfold getRobotTrajectory. cbn [PiecewisePolynomial.as_trajectory
                                      Trajectory.end_time].
    rewrite Hn.
    destruct (2 ^ 32 <=? n)%Z eqn:Hwrap; [apply Z.leb_le in Hwrap; lia|].
    destruct (sample_loop_spec _ plant _ n Hcov
                (Z.of_nat <$> seq 0 (Z.to_nat n))
                (RobotTrajectory.clear out) 0%float)
      as (out' & Hrun & _ & _ & Hcount & _).
    exists out'. split; [exact Hrun|].
    rewrite Hcount. cbn. by rewrite length_fmap, length_seq.
Qed.

Lemma fitted_trajectory_resamples_witness :
  PiecewisePolynomial.end_time two_second_ramp
  = RobotTrajectory.getWayPointDurationFromStart two_waypoints (2 - 1)
  ∧ ∃ out',
      getRobotTrajectory (PiecewisePolynomial.as_trajectory two_second_ramp)
        1%float plant1 used_output = (out', None)
      ∧ length (RobotTrajectory.waypoints_ out') = 3.
Proof.
  apply (fitted_trajectory_resamples two_waypoints rail plant1
           two_second_ramp 1%float used_output 3%Z).
  - vm_compute. reflexivity.
  - apply Forall_cons_2; [|apply Forall_nil_2].
    exists 0. split; [by vm_compute|]. cbn. lia.
  - vm_compute. reflexivity.
  - vm_compute. reflexivity.
Defined.
